(** * tor_scraper: a shallow embedding of [TorScraper] and its properties

    The Python class [TorScraper] (src/tor_scraper.py) starts one Tor
    process per worker, lets a pool of threads drain a shared queue of
    scrape tasks through those processes and finally kills the processes.

    The embedding keeps the shape of the source:
    - methods that run in the main thread are computations in a small
      state-and-exception monad [M] (the state survives a raised
      exception, as Python's heap does);
    - [_tor_worker] is a program-counter machine with one step per
      statement that touches shared state, and the thread pool is run
      under an arbitrary schedule of such steps;
    - the outside world (the Tor binary, the network behind pycurl, the
      thread scheduler) is a parameter, quantified over in the theorems;
    - everything the object does to the outside is recorded in a trace. *)

From Stdlib Require Import List String Ascii ZArith Lia Bool Arith Permutation.
From Stdlib Require Import DecimalString DecimalNat DecimalZ.
Import ListNotations.
Local Open Scope string_scope.

(** ** Python built-ins used by the module *)

Module Py.

(** [str(n)] on an int: decimal digits, a leading minus sign when negative. *)
Definition str (n : Z) : string := NilZero.string_of_int (Z.to_int n).

(** [s[len(pre):]] when [s] starts with [pre]. *)
Fixpoint strip_prefix (pre s : string) : option string :=
  match pre, s with
  | EmptyString, _ => Some s
  | String a pre', String b s' =>
      if Ascii.eqb a b then strip_prefix pre' s' else None
  | String _ _, EmptyString => None
  end.

(** [sub in s]. *)
Fixpoint contains (sub s : string) : bool :=
  match strip_prefix sub s with
  | Some _ => true
  | None =>
      match s with
      | EmptyString => false
      | String _ s' => contains sub s'
      end
  end.

(** The rightmost occurrence of a non-empty [sep] in [s]: the text before
    it and the text after it. *)
Fixpoint rpartition (sep s : string) : option (string * string) :=
  match s with
  | EmptyString => None
  | String c s' =>
      match rpartition sep s' with
      | Some (before, after) => Some (String c before, after)
      | None =>
          match strip_prefix sep s with
          | Some after => Some (EmptyString, after)
          | None => None
          end
      end
  end.

(** [s.rsplit(sep, 1)] for a non-empty [sep]: at most one split, taken
    from the right. *)
Definition rsplit1 (s sep : string) : list string :=
  match rpartition sep s with
  | Some (before, after) => [before; after]
  | None => [s]
  end.

End Py.

(** ** Exceptions, values and the trace *)

(** The exception classes that occur in the module. [Exception] stands
    for whatever a caller-supplied handler raises. *)
Inductive exn : Type :=
| pycurl_error (code : Z) (msg : string)
| Queue_Empty
| IndexError
| KeyError (key : string)
| TypeError (msg : string)
| ValueError (msg : string)
| OSError (msg : string)
| OverflowError (msg : string)
| Exception (msg : string).

(** The values that travel as [context] or as logging arguments. *)
Inductive PyObj : Type :=
| PyNone
| PyStr (s : string)
| PyInt (n : Z)
| PyExc (e : exn).

(** The result of [_query]: the body as raw bytes (a Python 2 [str]),
    or [None]. *)
Definition of_result (r : option string) : PyObj :=
  match r with
  | Some body => PyStr body
  | None => PyNone
  end.

(** A callable with the signature of [_default_handler]. A caller's
    callback either returns ([None]) or raises ([Some e]); what it does
    to the caller's own data is outside the module. *)
Inductive Handler : Type :=
| default_handler
| callback (f : string -> PyObj -> option string -> option exn).

(** The dict [{'url': ..., 'context': ..., 'handler': ...}] put on the
    queue by [add_scrape]. *)
Record Scrape : Type := mkScrape {
  scrape_url : string;
  scrape_context : PyObj;
  scrape_handler : Handler
}.

(** The [config] dict handed to [launch_tor_with_config]. *)
Record TorConfig : Type := mkTorConfig {
  SocksPort : string;
  ControlPort : string;
  DataDirectory : string
}.

Inductive ProxyType : Type := PROXYTYPE_SOCKS5_HOSTNAME.

(** The options set on the [pycurl.Curl] handle before [perform]. *)
Record Curl : Type := mkCurl {
  URL : string;
  PROXY : string;
  PROXYPORT : Z;
  PROXYTYPE : ProxyType
}.

Inductive Level : Type := DEBUG | INFO | ERROR.

(** What the object does to its surroundings, in order. *)
Inductive Event : Type :=
| Log (level : Level) (msg : string) (args : list PyObj)
| LaunchTor (tor_cmd : string) (config : TorConfig)
| Kill (pid : nat)
| Perform (curl : Curl)
| Get (index : nat) (item : option Scrape)
| Call (index : nat) (scrape : Scrape) (result : option string)
| TaskDone (index : nat).

(** The [config] argument of [__init__]. [public_ip_url] is the one key
    that may be missing from the dict. *)
Record Config : Type := mkConfig {
  thread_count : Z;
  socks_port_offset : Z;
  control_port_offset : Z;
  data_directory : string;
  tor_cmd : string;
  public_ip_url : option string
}.

(** The mutable state: the [Queue.Queue] (its items in FIFO order and
    its count of unfinished tasks), the Tor processes currently alive,
    and the trace. *)
Record State : Type := mkState {
  scrape_queue : list Scrape;
  unfinished_tasks : nat;
  tor_running : list nat;
  trace : list Event
}.

(** [st] with [evs] appended to its trace. *)
Definition record (st : State) (evs : list Event) : State :=
  mkState (scrape_queue st) (unfinished_tasks st) (tor_running st)
          (trace st ++ evs).

(** The surroundings. [tor_output c] is what a Tor process started with
    config [c] prints while it initialises; [tor_failure c] is the
    message of the [OSError] with which the launch fails, if it does;
    [curl_outcome n c] is how the [n]-th transfer of the run ends: with
    the body, or with the code and message of a [pycurl.error];
    [setopt_failure c] is the exception with which one of the [setopt]
    calls that give a handle the options [c] raises, if one does: pycurl
    refuses a URL with a NUL byte and a port it cannot hand to libcurl,
    and libcurl may refuse a port out of range. *)
Inductive PerformOutcome : Type :=
| body (bytes : string)
| failure (code : Z) (msg : string).

Record World : Type := mkWorld {
  tor_output : TorConfig -> list string;
  tor_failure : TorConfig -> option string;
  curl_outcome : nat -> Curl -> PerformOutcome;
  setopt_failure : Curl -> option exn
}.

(** ** The monad of the main thread *)

Inductive Res (A : Type) : Type :=
| Ok (a : A)
| Raise (e : exn).
Arguments Ok {A} a.
Arguments Raise {A} e.

Definition M (A : Type) : Type := State -> Res A * State.

Definition ret {A} (a : A) : M A := fun st => (Ok a, st).

Definition raise {A} (e : exn) : M A := fun st => (Raise e, st).

Definition bind {A B} (m : M A) (k : A -> M B) : M B :=
  fun st =>
    match m st with
    | (Ok a, st') => k a st'
    | (Raise e, st') => (Raise e, st')
    end.

(** [try: body / except <class> as exc: handler exc]; [catches] tells
    which exceptions belong to the class. *)
Definition try_except {A} (body_ : M A) (catches : exn -> bool)
    (handler : exn -> M A) : M A :=
  fun st =>
    match body_ st with
    | (Ok a, st') => (Ok a, st')
    | (Raise e, st') => if catches e then handler e st' else (Raise e, st')
    end.

Declare Scope py_scope.
Delimit Scope py_scope with py.
Notation "x <- m ;; k" := (bind m (fun x => k))
  (at level 61, m at next level, right associativity) : py_scope.
Notation "m ;; k" := (bind m (fun _ => k))
  (at level 61, right associativity) : py_scope.
Local Open Scope py_scope.

Definition emit (e : Event) : M unit :=
  fun st => (Ok tt, record st [e]).

(** [for x in xs: f x]. *)
Fixpoint for_each {A} (xs : list A) (f : A -> M unit) : M unit :=
  match xs with
  | [] => ret tt
  | x :: xs' => f x ;; for_each xs' f
  end.

(** ** The class [TorScraper] *)

(** Projections of a trace. *)
Definition launches (tr : list Event) : list (string * TorConfig) :=
  flat_map (fun e => match e with LaunchTor c k => [(c, k)] | _ => [] end) tr.

Definition kills (tr : list Event) : list nat :=
  flat_map (fun e => match e with Kill p => [p] | _ => [] end) tr.

Definition performs (tr : list Event) : list Curl :=
  flat_map (fun e => match e with Perform c => [c] | _ => [] end) tr.

(** The items handed out by the queue, in the order of the [get] calls. *)
Definition dequeued (tr : list Event) : list Scrape :=
  flat_map (fun e => match e with Get _ (Some s) => [s] | _ => [] end) tr.

(** The tasks whose handler was invoked, one entry per invocation. *)
Definition handled (tr : list Event) : list Scrape :=
  flat_map (fun e => match e with Call _ s _ => [s] | _ => [] end) tr.

(** The invocations with the result each handler received. *)
Definition calls (tr : list Event) : list (Scrape * option string) :=
  flat_map (fun e => match e with Call _ s r => [(s, r)] | _ => [] end) tr.

Definition logged (tr : list Event) : list (Level * string * list PyObj) :=
  flat_map (fun e => match e with Log l m a => [(l, m, a)] | _ => [] end) tr.

Definition is_pycurl_error (e : exn) : bool :=
  match e with pycurl_error _ _ => true | _ => false end.

Definition is_Queue_Empty (e : exn) : bool :=
  match e with Queue_Empty => true | _ => false end.

(** [range(n)]. *)
Definition range (n : Z) : list nat := seq 0 (Z.to_nat n).

(** [l[i]]. *)
Definition getitem {A} (l : list A) (i : nat) : M A :=
  match nth_error l i with
  | Some x => ret x
  | None => raise IndexError
  end.

(** ['...' + r] where [r] is what [_query] returned. *)
Definition str_add (a : string) (r : option string) : M string :=
  match r with
  | Some b => ret (a ++ b)
  | None => raise (TypeError "cannot concatenate 'str' and 'NoneType' objects")
  end.

Section TorScraper.

Variable world : World.

(** [self._config]. *)
Variable config : Config.

(** [self._logger.<level>(msg, *args)]. *)
Definition logger (level : Level) (msg : string) (args : list PyObj) : M unit :=
  emit (Log level msg args).

(** [self._scrape_queue.put(item)]. *)
Definition queue_put (item : Scrape) : M unit :=
  fun st =>
    (Ok tt, mkState (scrape_queue st ++ [item]) (S (unfinished_tasks st))
                    (tor_running st) (trace st)).

(** [self._scrape_queue.get(False)] called by worker [index]: never
    waits, raises [Queue.Empty] on an empty queue. *)
Definition queue_get_nowait (index : nat) : M Scrape :=
  fun st =>
    match scrape_queue st with
    | [] => (Raise Queue_Empty, record st [Get index None])
    | item :: rest =>
        (Ok item,
         mkState rest (unfinished_tasks st) (tor_running st)
                 (trace st ++ [Get index (Some item)]))
    end.

(** [self._scrape_queue.task_done()]. *)
Definition task_done (index : nat) : M unit :=
  fun st =>
    match unfinished_tasks st with
    | O => (Raise (ValueError "task_done() called too many times"), st)
    | S n =>
        (Ok tt, mkState (scrape_queue st) n (tor_running st)
                        (trace st ++ [TaskDone index]))
    end.

(** [_default_handler]. *)
Definition _default_handler (url : string) (context : PyObj)
    (result : option string) : M unit :=
  logger DEBUG "url: %s" [PyStr url] ;;
  logger DEBUG "context: %s" [context] ;;
  logger DEBUG "result: %s" [of_result result].

(** [add_scrape(url, context=None, handler=None)]. *)
Definition add_scrape (url : string) (context : PyObj)
    (handler : option Handler) : M unit :=
  let handler :=
    match handler with
    | None => default_handler
    | Some h => h
    end in
  queue_put (mkScrape url context handler).

(** [curl.perform()] with [output.getvalue()] after it. *)
Definition curl_perform (curl : Curl) : M string :=
  fun st =>
    let st' := record st [Perform curl] in
    match curl_outcome world (List.length (performs (trace st))) curl with
    | body bytes => (Ok bytes, st')
    | failure code msg => (Raise (pycurl_error code msg), st')
    end.

(** The five [curl.setopt] calls of [_query] (lines 134-138), which
    give the new handle its options. They stand before the [try]. *)
Definition curl_setopt (curl : Curl) : M unit :=
  match setopt_failure world curl with
  | Some e => raise e
  | None => ret tt
  end.

(** [_query]: only [curl.perform()] is inside the [try], so only what
    the transfer raises is caught. *)
Definition _query (url : string) (socks_port : Z) : M (option string) :=
  let curl := mkCurl url "localhost" socks_port PROXYTYPE_SOCKS5_HOSTNAME in
  curl_setopt curl ;;
  try_except
    (output <- curl_perform curl ;; ret (Some output))
    is_pycurl_error
    (fun exc =>
       logger ERROR "Unable to reach %s (%s)" [PyStr url; PyExc exc] ;;
       ret None).

(** [_tor_init_msg_handler]. *)
Definition _tor_init_msg_handler (line : string) : M unit :=
  if Py.contains "Bootstrapped " line then
    suffix <- getitem (Py.rsplit1 line "[notice] ") 1 ;;
    logger INFO suffix []
  else ret tt.

(** [stem.process.launch_tor_with_config]: starts the process, feeds
    every line of its initialisation output to [init_msg_handler] and
    returns the process, or raises [OSError]. The process is its ordinal
    among the launches. *)
Definition launch_tor_with_config (cmd : string) (cfg : TorConfig)
    (init_msg_handler : string -> M unit) : M nat :=
  fun st =>
    let pid := List.length (launches (trace st)) in
    (emit (LaunchTor cmd cfg) ;;
     for_each (tor_output world cfg) init_msg_handler ;;
     match tor_failure world cfg with
     | Some msg => raise (OSError msg)
     | None =>
         fun st' =>
           (Ok pid, mkState (scrape_queue st') (unfinished_tasks st')
                            (tor_running st' ++ [pid]) (trace st'))
     end) st.

(** [tor_process.kill()]. *)
Definition kill (pid : nat) : M unit :=
  fun st =>
    (Ok tt, mkState (scrape_queue st) (unfinished_tasks st)
                    (filter (fun p => negb (Nat.eqb p pid)) (tor_running st))
                    (trace st ++ [Kill pid])).

(** The [config] dict of the launch of circuit [index] (lines 68-74). *)
Definition tor_config (index : nat) : TorConfig :=
  {| SocksPort := Py.str (socks_port_offset config + Z.of_nat index);
     ControlPort := Py.str (control_port_offset config + Z.of_nat index);
     DataDirectory := data_directory config ++ Py.str (Z.of_nat index) |}.

(** [self._config['public_ip_url']]. *)
Definition config_public_ip_url : M string :=
  match public_ip_url config with
  | Some u => ret u
  | None => raise (KeyError "public_ip_url")
  end.

(** "Log public IP thru Tor" (lines 77-83), for circuit [index]. *)
Definition log_public_ip (index : nat) : M unit :=
  u <- config_public_ip_url ;;
  if negb (String.eqb u "") then
    r <- _query u (socks_port_offset config + Z.of_nat index) ;;
    msg <- str_add "Public IP: " r ;;
    logger INFO msg []
  else ret tt.

(** The first loop of [run] (lines 64-83), over the remaining indices. *)
Fixpoint start_tor_processes (indices : list nat) (tor_processes : list nat)
    : M (list nat) :=
  match indices with
  | [] => ret tor_processes
  | index :: indices' =>
      p <- launch_tor_with_config (tor_cmd config) (tor_config index)
             _tor_init_msg_handler ;;
      let tor_processes := (tor_processes ++ [p])%list in
      log_public_ip index ;;
      start_tor_processes indices' tor_processes
  end.

(** *** The worker thread *)

(** Where a worker stands in [_tor_worker]: before the statement named,
    or finished, by returning or by an exception that left the function. *)
Inductive Pc : Type :=
| AtStart
| AtGet
| AtLog (scrape : Scrape)
| AtQuery (scrape : Scrape)
| AtCall (scrape : Scrape) (result : option string)
| AtTaskDone
| Returned
| Died (e : exn).

Definition goto {A} (m : M A) (next : A -> Pc) : State -> Pc * State :=
  fun st =>
    match m st with
    | (Ok a, st') => (next a, st')
    | (Raise e, st') => (Died e, st')
    end.

(** [scrape['handler'](scrape['url'], scrape['context'], result)]. *)
Definition call (index : nat) (scrape : Scrape) (result : option string)
    : M unit :=
  emit (Call index scrape result) ;;
  match scrape_handler scrape with
  | default_handler =>
      _default_handler (scrape_url scrape) (scrape_context scrape) result
  | callback f =>
      match f (scrape_url scrape) (scrape_context scrape) result with
      | Some e => raise e
      | None => ret tt
      end
  end.

(** One statement of [_tor_worker(index)]. *)
Definition _tor_worker_step (index : nat) (pc : Pc) : State -> Pc * State :=
  match pc with
  | AtStart =>
      goto (logger INFO ("Starting _tor_worker:" ++ Py.str (Z.of_nat index)) [])
           (fun _ => AtGet)
  | AtGet =>
      goto (try_except
              (scrape <- queue_get_nowait index ;; ret (AtLog scrape))
              is_Queue_Empty
              (fun _ => ret Returned))
           (fun pc' => pc')
  | AtLog scrape =>
      goto (logger DEBUG ("Scraping _tor_worker:" ++ Py.str (Z.of_nat index) ++
                          " url:" ++ scrape_url scrape) [])
           (fun _ => AtQuery scrape)
  | AtQuery scrape =>
      goto (_query (scrape_url scrape)
                   (socks_port_offset config + Z.of_nat index))
           (fun result => AtCall scrape result)
  | AtCall scrape result =>
      goto (call index scrape result) (fun _ => AtTaskDone)
  | AtTaskDone =>
      goto (task_done index) (fun _ => AtGet)
  | Returned => fun st => (Returned, st)
  | Died e => fun st => (Died e, st)
  end.

Definition finished (pc : Pc) : bool :=
  match pc with
  | Returned | Died _ => true
  | _ => false
  end.

(** The indices, counted from [k], of the threads still running. *)
Fixpoint alive_from (k : nat) (pool : list Pc) : list nat :=
  match pool with
  | [] => []
  | pc :: pool' =>
      if finished pc then alive_from (S k) pool'
      else k :: alive_from (S k) pool'
  end.

Definition alive (pool : list Pc) : list nat := alive_from 0 pool.

(** The scheduler's [choice] names one of the running threads. *)
Definition pick (choice : nat) (pool : list Pc) : option nat :=
  nth_error (alive pool) (choice mod List.length (alive pool)).

Fixpoint set_nth (i : nat) (pc : Pc) (pool : list Pc) : list Pc :=
  match pool, i with
  | [], _ => []
  | _ :: pool', O => pc :: pool'
  | p :: pool', S i' => p :: set_nth i' pc pool'
  end.

(** The threads of [run] (lines 86-95) under a schedule: each entry of
    [schedule] lets one running thread execute one statement. The result
    is [None] when the schedule ends before every thread has finished,
    that is, before the last [join] returns.

    The pool holds one program counter per index; a thread that the
    main thread has not started yet is a thread at [AtStart] that the
    schedule has not chosen yet. A statement is atomic: the queue and
    the logger serialise their callers with their own locks, and an
    exception that leaves [_tor_worker] ends that thread only. *)
Fixpoint run_threads (schedule : list nat) (pool : list Pc) (st : State)
    : option (list Pc * State) :=
  match alive pool with
  | [] => Some (pool, st)
  | _ :: _ =>
      match schedule with
      | [] => None
      | choice :: schedule' =>
          match pick choice pool with
          | None => None
          | Some index =>
              let (pc', st') :=
                _tor_worker_step index (nth index pool Returned) st in
              run_threads schedule' (set_nth index pc' pool) st'
          end
      end
  end.

(** [run]: start the processes, run the threads to completion, kill the
    processes. *)
Definition run (schedule : list nat) (st : State)
    : option (Res unit * State) :=
  match start_tor_processes (range (thread_count config)) [] st with
  | (Raise e, st1) => Some (Raise e, st1)
  | (Ok tor_processes, st1) =>
      match run_threads schedule
              (map (fun _ => AtStart) (range (thread_count config))) st1 with
      | None => None
      | Some (_, st2) => Some (for_each tor_processes kill st2)
      end
  end.

End TorScraper.

(** [__init__]: an empty queue, nothing running, nothing done yet. *)
Definition init : State := mkState [] 0 [] [].

(** ** Transfers, handler calls and faults *)

(** The options worker [index] sets on the handle for [scrape], and
    those of the public-IP probe of circuit [index]. *)
Definition worker_curl (config : Config) (index : nat) (scrape : Scrape) : Curl :=
  mkCurl (scrape_url scrape) "localhost"
         (socks_port_offset config + Z.of_nat index) PROXYTYPE_SOCKS5_HOSTNAME.

Definition probe_curl (config : Config) (u : string) (index : nat) : Curl :=
  mkCurl u "localhost" (socks_port_offset config + Z.of_nat index)
         PROXYTYPE_SOCKS5_HOSTNAME.

(** Whether pycurl takes the options of the fetch of [scrape] from each
    of the first [n] workers, or refuses them from one of these. *)
Definition accepted (world : World) (config : Config) (n : nat)
    (scrape : Scrape) : Prop :=
  forall i, i < n -> setopt_failure world (worker_curl config i scrape) = None.

Definition rejected (world : World) (config : Config) (n : nat)
    (scrape : Scrape) : Prop :=
  exists i, i < n /\ setopt_failure world (worker_curl config i scrape) <> None.

(** The probes of a start-up that went through the given indices. *)
Definition probes (config : Config) (indices : list nat) : list Curl :=
  match public_ip_url config with
  | Some u => if String.eqb u "" then [] else map (probe_curl config u) indices
  | None => []
  end.

(** A transfer made through the proxy of one of the first [n] circuits. *)
Definition through_circuit (config : Config) (n : nat) (c : Curl) : Prop :=
  PROXY c = "localhost" /\ PROXYTYPE c = PROXYTYPE_SOCKS5_HOSTNAME /\
  exists i, i < n /\ PROXYPORT c = (socks_port_offset config + Z.of_nat i)%Z.

(** The task a worker has fetched and not yet handed to its handler. *)
Definition fetched (pc : Pc) : list Scrape :=
  match pc with
  | AtCall s _ => [s]
  | _ => []
  end.

(** Whether the handler of [scrape] raises when given [result], and the
    handler calls of a trace that raised. *)
Definition raises (scrape : Scrape) (result : option string) : bool :=
  match scrape_handler scrape with
  | default_handler => false
  | callback f =>
      match f (scrape_url scrape) (scrape_context scrape) result with
      | Some _ => true
      | None => false
      end
  end.

Definition faults (tr : list Event) : list (Scrape * option string) :=
  filter (fun c => raises (fst c) (snd c)) (calls tr).

Definition died (pc : Pc) : bool :=
  match pc with
  | Died _ => true
  | _ => false
  end.

Definition count_died (pool : list Pc) : nat := List.length (filter died pool).

(** What a handler is given for a transfer that ended with [o]. *)
Definition outcome_result (o : PerformOutcome) : option string :=
  match o with
  | body bytes => Some bytes
  | failure _ _ => None
  end.

(** The transfers [W], made as the [n]-th and following ones of the
    run, each with the value its outcome amounts to. *)
Fixpoint outcomes (world : World) (n : nat) (W : list Curl)
    : list (Curl * option string) :=
  match W with
  | [] => []
  | c :: W' =>
      (c, outcome_result (curl_outcome world n c)) :: outcomes world (S n) W'
  end.

(** The handler calls of a trace, each as the transfer its worker makes
    for the task and the result the handler received. *)
Definition deliveries (config : Config) (tr : list Event)
    : list (Curl * option string) :=
  flat_map (fun e => match e with
                     | Call i s r => [(worker_curl config i s, r)]
                     | _ => []
                     end) tr.

(** The same for the result a worker holds and has not handed over yet,
    and for the workers of a pool numbered from [k]. *)
Definition carried (config : Config) (index : nat) (pc : Pc)
    : list (Curl * option string) :=
  match pc with
  | AtCall s r => [(worker_curl config index s, r)]
  | _ => []
  end.

Fixpoint carried_from (config : Config) (k : nat) (pool : list Pc)
    : list (Curl * option string) :=
  match pool with
  | [] => []
  | pc :: pool' => (carried config k pc ++ carried_from config (S k) pool')%list
  end.

(** ** Auxiliary notions for the proofs *)

(** The task a worker holds between taking it and calling its handler. *)
Definition holding (pc : Pc) : list Scrape :=
  match pc with
  | AtLog s | AtQuery s | AtCall s _ => [s]
  | _ => []
  end.

(** Whether a worker still owes the queue a [task_done]. *)
Definition owes (pc : Pc) : nat :=
  match pc with
  | AtLog _ | AtQuery _ | AtCall _ _ | AtTaskDone => 1
  | _ => 0
  end.

(** The number of statements a worker executes, at most, before it is
    back at [AtGet]; and the bound for a whole pool. *)
Definition weight (pc : Pc) : nat :=
  match pc with
  | AtStart => 2
  | AtGet => 1
  | AtLog _ => 5
  | AtQuery _ => 4
  | AtCall _ _ => 3
  | AtTaskDone => 2
  | Returned | Died _ => 0
  end.

Definition steps_left (pool : list Pc) (st : State) : nat :=
  5 * List.length (scrape_queue st) + list_sum (map weight pool).

(** Events that concern neither the queue, nor a handler, nor a process. *)
Definition quiet_event (e : Event) : bool :=
  match e with
  | Log _ _ _ | Perform _ => true
  | _ => false
  end.

Definition quiet (evs : list Event) : Prop := forallb quiet_event evs = true.

(** A computation of the main thread that only logs and transfers. *)
Definition Quiet {A} (m : M A) : Prop :=
  forall st, exists r evs, m st = (r, record st evs) /\ quiet evs.

(** The statements of [_tor_worker] as a relation: what one step of
    worker [index] does to its program counter and to the state. *)
Inductive Step (world : World) (config : Config) (index : nat)
    : Pc -> State -> Pc -> State -> Prop :=
| step_start st evs :
    quiet evs ->
    Step world config index AtStart st AtGet (record st evs)
| step_get_empty st :
    scrape_queue st = [] ->
    Step world config index AtGet st Returned (record st [Get index None])
| step_get st scrape rest :
    scrape_queue st = scrape :: rest ->
    Step world config index AtGet st (AtLog scrape)
         (mkState rest (unfinished_tasks st) (tor_running st)
                  (trace st ++ [Get index (Some scrape)]))
| step_log st scrape evs :
    quiet evs ->
    Step world config index (AtLog scrape) st (AtQuery scrape) (record st evs)
| step_query st scrape result evs :
    setopt_failure world (worker_curl config index scrape) = None ->
    quiet evs ->
    Step world config index (AtQuery scrape) st (AtCall scrape result)
         (record st evs)
| step_query_raise st scrape e :
    setopt_failure world (worker_curl config index scrape) = Some e ->
    Step world config index (AtQuery scrape) st (Died e) st
| step_call st scrape result evs :
    raises scrape result = false ->
    quiet evs ->
    Step world config index (AtCall scrape result) st AtTaskDone
         (record st (Call index scrape result :: evs))
| step_call_raise st scrape result f e :
    scrape_handler scrape = callback f ->
    f (scrape_url scrape) (scrape_context scrape) result = Some e ->
    Step world config index (AtCall scrape result) st (Died e)
         (record st [Call index scrape result])
| step_task_done st n :
    unfinished_tasks st = S n ->
    Step world config index AtTaskDone st AtGet
         (mkState (scrape_queue st) n (tor_running st)
                  (trace st ++ [TaskDone index]))
| step_task_done_raise st :
    unfinished_tasks st = 0 ->
    Step world config index AtTaskDone st
         (Died (ValueError "task_done() called too many times")) st.

(** What the [n] threads keep true of the tasks that were on the queue
    when they started. The queue hands the tasks out in order. Every
    task taken is held by a worker, or has had its handler called, or
    was [dropped]: taken by a worker that died setting the options of
    the fetch. The queue's count of unfinished tasks is made of the
    tasks waiting, those a worker still owes a [task_done] for, those
    whose handler raised and those dropped; the last two make up the
    workers that died. Once a worker has returned the queue is empty. *)
Definition Inv (world : World) (config : Config) (n : nat)
    (tasks : list Scrape) (pool : list Pc) (st : State) : Prop :=
  (dequeued (trace st) ++ scrape_queue st)%list = tasks /\
  (exists dropped,
      Permutation (handled (trace st) ++ flat_map holding pool ++ dropped)%list
                  (dequeued (trace st)) /\
      Forall (rejected world config n) dropped /\
      unfinished_tasks st =
        List.length (scrape_queue st) + list_sum (map owes pool) +
        List.length (faults (trace st)) + List.length dropped /\
      count_died pool =
        List.length (faults (trace st)) + List.length dropped) /\
  (In Returned pool -> scrape_queue st = []).

Definition survives (pc : Pc) : Prop :=
  match pc with
  | Died _ => False
  | _ => True
  end.

(** A handler that returns normally whatever it is given. *)
Definition never_raises (h : Handler) : Prop :=
  match h with
  | default_handler => True
  | callback f => forall url context result, f url context result = None
  end.

(** The arguments of one [add_scrape] call, and a batch of such calls
    made on a fresh object before [run]. *)
Definition Request : Type := string * PyObj * option Handler.

Definition add_scrapes (requests : list Request) : M unit :=
  for_each requests (fun '(url, context, handler) => add_scrape url context handler).

Definition enqueued (requests : list Request) : State :=
  snd (add_scrapes requests init).

(** ** Concrete surroundings for the examples *)

Module Examples.

Definition bootstrap_lines : list string :=
  ["May 10 12:00:00.000 [notice] Bootstrapped 0%: Starting";
   "May 10 12:00:05.000 [notice] Bootstrapped 100%: Done"].

(** Every launch succeeds and every transfer returns a page. *)
Definition world_ok : World :=
  mkWorld (fun _ => bootstrap_lines) (fun _ => None) (fun _ _ => body "page")
          (fun _ => None).

(** As [world_ok], but the second transfer of the run fails. *)
Definition world_second_fetch_fails : World :=
  mkWorld (fun _ => bootstrap_lines) (fun _ => None)
          (fun n _ => if Nat.eqb n 1 then failure 7 "Failed to connect"
                      else body "page")
          (fun _ => None).

(** As [world_ok], but the Tor process on socks port 9251 never starts. *)
Definition world_second_launch_fails : World :=
  mkWorld (fun _ => bootstrap_lines)
          (fun c => if String.eqb (SocksPort c) "9251"
                    then Some "Process terminated: Timed out" else None)
          (fun _ _ => body "page")
          (fun _ => None).

(** Every launch succeeds and every transfer times out. *)
Definition world_offline : World :=
  mkWorld (fun _ => bootstrap_lines) (fun _ => None)
          (fun _ _ => failure 28 "Connection timed out")
          (fun _ => None).

(** As [world_ok], but with a pycurl that refuses a URL with a NUL byte
    and a libcurl that refuses a proxy port out of range. *)
Definition world_strict : World :=
  mkWorld (fun _ => bootstrap_lines) (fun _ => None) (fun _ _ => body "page")
          (fun c =>
             if Py.contains (String "000"%char "") (URL c)
             then Some (TypeError "expected string without null bytes")
             else if ((PROXYPORT c <? 0) || (65535 <? PROXYPORT c))%Z
             then Some (pycurl_error 43 "")
             else None).

(** The config of the module's docstring with [n] threads and the
    public-IP probe switched off, switched on, or with its key missing. *)
Definition config_of (n : Z) : Config :=
  mkConfig n 9250 9350 "tor_data/" "tor.real" (Some "").

Definition config_probe : Config :=
  mkConfig 1 9250 9350 "tor_data/" "tor.real" (Some "https://api.ipify.org").

Definition config_no_url : Config :=
  mkConfig 1 9250 9350 "tor_data/" "tor.real" None.

(** A callback that raises, and one that returns. *)
Definition boom : Handler := callback (fun _ _ _ => Some (Exception "boom")).

Definition keep : Handler := callback (fun _ _ _ => None).

Definition boom_scrape : Scrape := mkScrape "http://a" PyNone boom.

Definition three_requests : list Request :=
  [("http://a", PyNone, None);
   ("http://b", PyInt 2, Some keep);
   ("http://c", PyStr "third", None)].

Definition faulty_requests : list Request :=
  [("http://a", PyNone, Some boom); ("http://b", PyNone, None)].

(** A URL with a NUL byte in it, as a caller can hand it to
    [add_scrape], before a URL that is in order. *)
Definition nul_url : string := "http://a" ++ String "000"%char "b".

Definition nul_scrape : Scrape := mkScrape nul_url PyNone default_handler.

Definition nul_requests : list Request :=
  [(nul_url, PyNone, None); ("http://b", PyNone, None)].

(** A schedule that always lets the first running thread go on, and one
    that alternates between the threads. *)
Definition first_running (n : nat) : list nat := repeat 0 n.

Definition alternating (n : nat) : list nat := map (fun i => Nat.modulo i 2) (seq 0 n).

End Examples.

(** * Properties *)

Local Open Scope list_scope.

(** ** The monad and the trace *)

Lemma record_record st a b : record (record st a) b = record st (a ++ b).
Proof. unfold record; simpl. now rewrite app_assoc. Qed.

Lemma record_nil st : record st [] = st.
Proof. destruct st; unfold record; simpl. now rewrite app_nil_r. Qed.

Lemma emit_eq e st : emit e st = (Ok tt, record st [e]).
Proof. reflexivity. Qed.

Lemma logger_eq l m a st : logger l m a st = (Ok tt, record st [Log l m a]).
Proof. reflexivity. Qed.

Lemma handled_app a b : handled (a ++ b) = handled a ++ handled b.
Proof. apply flat_map_app. Qed.

Lemma dequeued_app a b : dequeued (a ++ b) = dequeued a ++ dequeued b.
Proof. apply flat_map_app. Qed.

Lemma kills_app a b : kills (a ++ b) = kills a ++ kills b.
Proof. apply flat_map_app. Qed.

Lemma launches_app a b : launches (a ++ b) = launches a ++ launches b.
Proof. apply flat_map_app. Qed.

Lemma calls_app a b : calls (a ++ b) = calls a ++ calls b.
Proof. apply flat_map_app. Qed.

(** ** The pool: picking and replacing a thread *)

Lemma alive_from_spec pool : forall k i,
  In i (alive_from k pool) ->
  k <= i /\ exists pc, nth_error pool (i - k) = Some pc /\ finished pc = false.
Proof.
  induction pool as [|p pool IH]; simpl; intros k i Hin; [easy|].
  destruct (finished p) eqn:Hp.
  - destruct (IH _ _ Hin) as (Hle & pc & Hnth & Hf).
    split; [lia|]. exists pc. split; [|exact Hf].
    replace (i - k) with (S (i - S k)) by lia. exact Hnth.
  - destruct Hin as [<-|Hin].
    + split; [lia|]. exists p. now rewrite Nat.sub_diag.
    + destruct (IH _ _ Hin) as (Hle & pc & Hnth & Hf).
      split; [lia|]. exists pc. split; [|exact Hf].
      replace (i - k) with (S (i - S k)) by lia. exact Hnth.
Qed.

Lemma alive_from_nil pool : forall k,
  alive_from k pool = [] <-> Forall (fun pc => finished pc = true) pool.
Proof.
  induction pool as [|p pool IH]; simpl; intros k.
  - split; auto.
  - destruct (finished p) eqn:Hp.
    + rewrite IH. split; intros H.
      * now constructor.
      * now inversion H.
    + split; intros H; [discriminate|].
      inversion H; congruence.
Qed.

Lemma pick_spec choice pool i :
  pick choice pool = Some i ->
  exists pc, nth_error pool i = Some pc /\ finished pc = false.
Proof.
  unfold pick, alive. intros H. apply nth_error_In in H.
  apply alive_from_spec in H. now rewrite Nat.sub_0_r in H.
Qed.

Lemma pick_alive choice pool :
  alive pool <> [] -> exists i, pick choice pool = Some i.
Proof.
  unfold pick. intros H.
  destruct (nth_error (alive pool) (choice mod List.length (alive pool))) eqn:E.
  - eauto.
  - apply nth_error_None in E.
    assert (List.length (alive pool) <> 0) by (destruct (alive pool); simpl; congruence).
    pose proof (Nat.mod_upper_bound choice _ H0). lia.
Qed.

Lemma set_nth_split pool : forall i pc pc',
  nth_error pool i = Some pc ->
  exists pre post,
    pool = pre ++ pc :: post /\ set_nth i pc' pool = pre ++ pc' :: post.
Proof.
  induction pool as [|p pool IH]; intros [|i] pc pc' H; simpl in *; try discriminate.
  - injection H as ->. now exists [], pool.
  - destruct (IH _ _ pc' H) as (pre & post & -> & ->).
    now exists (p :: pre), post.
Qed.

(** Whatever holds at the start of the threads and is kept by every
    statement of a running thread holds when the last thread has
    finished, and then every thread has finished. *)
Lemma run_threads_invariant world config (P : list Pc -> State -> Prop) :
  (forall pool st i pc pc' st',
      P pool st -> nth_error pool i = Some pc -> finished pc = false ->
      _tor_worker_step world config i pc st = (pc', st') ->
      P (set_nth i pc' pool) st') ->
  forall schedule pool st pool' st',
    P pool st ->
    run_threads world config schedule pool st = Some (pool', st') ->
    P pool' st' /\ Forall (fun pc => finished pc = true) pool'.
Proof.
  intros Hstep schedule.
  induction schedule as [|c schedule IH]; intros pool st pool' st' HP Hrun; simpl in Hrun.
  - destruct (alive pool) eqn:Ha; [|discriminate].
    injection Hrun as <- <-. split; [exact HP|]. now apply (alive_from_nil pool 0).
  - destruct (alive pool) eqn:Ha.
    + injection Hrun as <- <-. split; [exact HP|]. now apply (alive_from_nil pool 0).
    + destruct (pick c pool) as [i|] eqn:Hpick; [|discriminate].
      destruct (pick_spec _ _ _ Hpick) as (pc & Hnth & Hf).
      rewrite (nth_error_nth _ _ Returned Hnth) in Hrun.
      destruct (_tor_worker_step world config i pc st) as [pc' st1] eqn:Hs.
      eapply IH; [|exact Hrun]. eapply Hstep; eauto.
Qed.

(** ** One statement of a worker *)

Lemma quiet_handled evs : quiet evs -> handled evs = [].
Proof.
  unfold quiet. induction evs as [|[] evs IH]; simpl; intros H;
    try discriminate; auto.
Qed.

Lemma quiet_dequeued evs : quiet evs -> dequeued evs = [].
Proof.
  unfold quiet. induction evs as [|[] evs IH]; simpl; intros H;
    try discriminate; auto.
Qed.

Lemma quiet_kills evs : quiet evs -> kills evs = [].
Proof.
  unfold quiet. induction evs as [|[] evs IH]; simpl; intros H;
    try discriminate; auto.
Qed.

Lemma quiet_launches evs : quiet evs -> launches evs = [].
Proof.
  unfold quiet. induction evs as [|[] evs IH]; simpl; intros H;
    try discriminate; auto.
Qed.

Lemma quiet_calls evs : quiet evs -> calls evs = [].
Proof.
  unfold quiet. induction evs as [|[] evs IH]; simpl; intros H;
    try discriminate; auto.
Qed.

Lemma faults_app a b : faults (a ++ b) = faults a ++ faults b.
Proof. unfold faults. now rewrite calls_app, filter_app. Qed.

Lemma faults_calls_nil evs : calls evs = [] -> faults evs = [].
Proof. unfold faults. now intros ->. Qed.

Lemma handled_nil_faults evs : handled evs = [] -> faults evs = [].
Proof.
  intros H. apply faults_calls_nil.
  induction evs as [|[] evs IH]; simpl in *; auto; discriminate.
Qed.

Lemma count_died_AtStart {A} (l : list A) :
  count_died (map (fun _ => AtStart) l) = 0.
Proof. induction l; simpl; auto. Qed.

Lemma quiet_faults evs : quiet evs -> faults evs = [].
Proof. intros H. apply faults_calls_nil. now apply quiet_calls. Qed.

Lemma faults_Call index scrape result evs :
  faults (Call index scrape result :: evs) =
  if raises scrape result then (scrape, result) :: faults evs else faults evs.
Proof. reflexivity. Qed.

Lemma raises_callback scrape result f e :
  scrape_handler scrape = callback f ->
  f (scrape_url scrape) (scrape_context scrape) result = Some e ->
  raises scrape result = true.
Proof. unfold raises. now intros -> ->. Qed.

(** [_query] raises what setting the options raises, before any
    transfer; otherwise it returns: with the body, or with [None] after
    one line in the error log. *)
Lemma _query_cases world url socks_port st :
  let curl := mkCurl url "localhost" socks_port PROXYTYPE_SOCKS5_HOSTNAME in
  match setopt_failure world curl with
  | Some e => _query world url socks_port st = (Raise e, st)
  | None =>
      match curl_outcome world (List.length (performs (trace st))) curl with
      | body bytes =>
          _query world url socks_port st =
          (Ok (Some bytes), record st [Perform curl])
      | failure code msg =>
          _query world url socks_port st =
          (Ok None,
           record st [Perform curl;
                      Log ERROR "Unable to reach %s (%s)"
                          [PyStr url; PyExc (pycurl_error code msg)]])
      end
  end.
Proof.
  unfold _query, bind, curl_setopt; simpl.
  destruct (setopt_failure world _); [reflexivity|].
  unfold ret, try_except, bind, curl_perform; simpl.
  destruct (curl_outcome world _ _); simpl.
  - reflexivity.
  - unfold logger, emit, ret. now rewrite record_record.
Qed.

Lemma _query_quiet world url socks_port st :
  setopt_failure world
    (mkCurl url "localhost" socks_port PROXYTYPE_SOCKS5_HOSTNAME) = None ->
  exists result evs,
    _query world url socks_port st = (Ok result, record st evs) /\ quiet evs.
Proof.
  intros Hs.
  pose proof (_query_cases world url socks_port st) as H. simpl in H.
  rewrite Hs in H.
  destruct (curl_outcome world _ _); rewrite H;
    eexists; eexists; (split; [reflexivity|reflexivity]).
Qed.

Lemma _tor_worker_step_Step world config index pc st pc' st' :
  finished pc = false ->
  _tor_worker_step world config index pc st = (pc', st') ->
  Step world config index pc st pc' st'.
Proof.
  intros Hf H. destruct pc; simpl in Hf; try discriminate; simpl in H.
  - unfold goto in H. rewrite logger_eq in H. injection H as <- <-. now constructor.
  - unfold goto, try_except, bind, queue_get_nowait in H.
    destruct (scrape_queue st) eqn:Hq; simpl in H; injection H as <- <-.
    + now constructor.
    + now constructor.
  - unfold goto in H. rewrite logger_eq in H. injection H as <- <-. now constructor.
  - unfold goto in H.
    destruct (setopt_failure world (worker_curl config index scrape)) as [e|] eqn:Hs.
    + pose proof (_query_cases world (scrape_url scrape)
                    (socks_port_offset config + Z.of_nat index) st) as Hq.
      simpl in Hq. unfold worker_curl in Hs. rewrite Hs in Hq. rewrite Hq in H.
      injection H as <- <-. now constructor.
    + destruct (_query_quiet world (scrape_url scrape)
                  (socks_port_offset config + Z.of_nat index) st Hs)
        as (r & evs & Hq & Hquiet).
      rewrite Hq in H. injection H as <- <-. now constructor.
  - unfold goto, call, bind in H. rewrite emit_eq in H.
    destruct (scrape_handler scrape) eqn:Hh.
    + unfold _default_handler, bind in H. rewrite !logger_eq, !record_record in H.
      injection H as <- <-. constructor; [|reflexivity].
      unfold raises. now rewrite Hh.
    + destruct (f _ _ _) eqn:Hfe; simpl in H; injection H as <- <-.
      * eapply step_call_raise; eauto.
      * apply (step_call world config index st scrape result []); [|reflexivity].
        unfold raises. now rewrite Hh, Hfe.
  - unfold goto, task_done in H.
    destruct (unfinished_tasks st) eqn:Hu; injection H as <- <-.
    + now constructor.
    + now constructor.
Qed.

(** ** What the threads keep true *)

Lemma holding_split pre pc post :
  flat_map holding (pre ++ pc :: post) =
  flat_map holding pre ++ holding pc ++ flat_map holding post.
Proof. now rewrite flat_map_app. Qed.

Lemma owes_split pre pc post :
  list_sum (map owes (pre ++ pc :: post)) =
  list_sum (map owes pre) + owes pc + list_sum (map owes post).
Proof. rewrite map_app, list_sum_app; simpl. lia. Qed.

Lemma weight_split pre pc post :
  list_sum (map weight (pre ++ pc :: post)) =
  list_sum (map weight pre) + weight pc + list_sum (map weight post).
Proof. rewrite map_app, list_sum_app; simpl. lia. Qed.

Lemma count_died_split pre pc post :
  count_died (pre ++ pc :: post) =
  count_died pre + (if died pc then 1 else 0) + count_died post.
Proof.
  unfold count_died. rewrite filter_app, length_app. simpl.
  destruct (died pc); simpl; lia.
Qed.

Lemma In_split_replace (pre post : list Pc) pc pc' x :
  In x (pre ++ pc' :: post) -> x <> pc' -> In x (pre ++ pc :: post).
Proof.
  rewrite !in_app_iff; simpl. intros [H|[H|H]] Hne; auto. congruence.
Qed.

Lemma Permutation_take (h a b d : list Scrape) s :
  Permutation (h ++ a ++ b) d ->
  Permutation (h ++ a ++ s :: b) (d ++ [s]).
Proof.
  intros H. rewrite app_assoc. rewrite <- Permutation_middle.
  rewrite <- app_assoc.
  rewrite (Permutation_app_comm d [s]). simpl. now constructor.
Qed.

Lemma Permutation_hand_cons (h a b d : list Scrape) s :
  Permutation (h ++ a ++ s :: b) d ->
  Permutation (h ++ s :: a ++ b) d.
Proof.
  intros H. rewrite <- H. apply Permutation_app_head. apply Permutation_middle.
Qed.

Lemma Permutation_drop (h a b c d : list Scrape) s :
  Permutation (h ++ a ++ s :: b ++ c) d ->
  Permutation (h ++ a ++ b ++ s :: c) d.
Proof.
  intros H. rewrite <- H. do 2 apply Permutation_app_head.
  symmetry. apply Permutation_middle.
Qed.

Lemma Inv_step world config n tasks pre pc post index st pc' st' :
  index < n ->
  Inv world config n tasks (pre ++ pc :: post) st ->
  Step world config index pc st pc' st' ->
  Inv world config n tasks (pre ++ pc' :: post) st'.
Proof.
  intros Hi (Hfifo & (dropped & Hperm & Hrej & Hcount & Hdied) & Hret) Hstep.
  unfold Inv.
  rewrite holding_split, owes_split, count_died_split in *.
  rewrite <- !app_assoc in *.
  assert (Hret' : Returned <> pc' -> In Returned (pre ++ pc' :: post) ->
                  scrape_queue st = [])
    by (intros Hx Hin; apply Hret;
        apply (In_split_replace pre post pc pc' Returned); assumption).
  inversion Hstep; subst; simpl in *;
    rewrite ?handled_app, ?dequeued_app, ?faults_app, ?faults_Call in *;
    simpl in *;
    rewrite ?(quiet_handled evs), ?(quiet_dequeued evs), ?(quiet_faults evs)
      in * by assumption;
    rewrite ?app_nil_r in *.
  - (* the first log line *)
    split; [reflexivity|]. split; [|apply Hret'; discriminate].
    exists dropped; rewrite <- ?app_assoc; simpl. auto.
  - (* the queue is empty *)
    split; [reflexivity|]. split; [|intros _; exact H].
    exists dropped; rewrite <- ?app_assoc; simpl. auto.
  - (* a task is taken *)
    split; [rewrite <- app_assoc, H; reflexivity|]. split.
    + exists dropped; rewrite <- ?app_assoc; simpl. split; [apply Permutation_take; assumption|].
      split; [exact Hrej|]. rewrite H in Hcount. simpl in Hcount. split; lia.
    + intros Hin. apply Hret' in Hin; [congruence|discriminate].
  - (* the debug line *)
    split; [reflexivity|]. split; [|apply Hret'; discriminate].
    exists dropped; rewrite <- ?app_assoc; simpl. auto.
  - (* the fetch *)
    split; [reflexivity|]. split; [|apply Hret'; discriminate].
    exists dropped; rewrite <- ?app_assoc; simpl. auto.
  - (* setting the options raises *)
    split; [reflexivity|]. split; [|apply Hret'; discriminate].
    exists (scrape :: dropped); rewrite <- ?app_assoc; simpl. split; [apply Permutation_drop; assumption|].
    split.
    + constructor; [|exact Hrej]. exists index. split; [exact Hi|]. congruence.
    + simpl. split; lia.
  - (* the handler returns *)
    rewrite H in *. rewrite ?app_nil_r in *.
    split; [reflexivity|]. split; [|apply Hret'; discriminate].
    exists dropped; rewrite <- ?app_assoc; simpl. split; [apply Permutation_hand_cons; assumption|].
    split; [exact Hrej|]. split; lia.
  - (* the handler raises *)
    rewrite (raises_callback _ _ _ _ H H0) in *.
    split; [reflexivity|]. split; [|apply Hret'; discriminate].
    exists dropped; rewrite <- ?app_assoc; simpl. split; [apply Permutation_hand_cons; assumption|].
    split; [exact Hrej|]. rewrite !length_app. simpl. split; lia.
  - (* task_done *)
    split; [reflexivity|]. split; [|apply Hret'; discriminate].
    exists dropped; rewrite <- ?app_assoc; simpl. repeat split; auto; lia.
  - (* task_done with nothing left to finish *)
    exfalso. lia.
Qed.

(** When no handler raises and pycurl takes the options of every fetch,
    no worker dies. *)
Lemma Inv_survives world config n tasks pre pc post index st pc' st' :
  Forall (fun s => never_raises (scrape_handler s)) tasks ->
  Forall (accepted world config n) tasks ->
  index < n ->
  Inv world config n tasks (pre ++ pc :: post) st ->
  Step world config index pc st pc' st' ->
  survives pc'.
Proof.
  intros Hnr Hacc Hi (Hfifo & (dropped & Hperm & _ & Hcount & _) & _) Hstep.
  rewrite holding_split in Hperm. rewrite owes_split in Hcount.
  rewrite Forall_forall in Hnr, Hacc.
  assert (Hheld : forall s, In s (holding pc) -> In s tasks).
  { intros s Hs. rewrite <- Hfifo. apply in_or_app. left.
    eapply Permutation_in; [exact Hperm|].
    rewrite !in_app_iff; auto. }
  inversion Hstep; subst; simpl in *; auto.
  - specialize (Hacc scrape (Hheld _ (or_introl eq_refl)) index Hi). congruence.
  - specialize (Hnr scrape (Hheld _ (or_introl eq_refl))).
    rewrite H in Hnr. simpl in Hnr. rewrite Hnr in H0. discriminate.
  - lia.
Qed.

Lemma steps_left_step world config pre pc post index st pc' st' :
  finished pc = false ->
  Step world config index pc st pc' st' ->
  steps_left (pre ++ pc' :: post) st' < steps_left (pre ++ pc :: post) st.
Proof.
  intros Hf Hstep. unfold steps_left. rewrite !weight_split.
  inversion Hstep; subst; simpl in *; try lia.
  rewrite H; simpl; lia.
Qed.

(** ** The thread pool *)

Lemma Step_frame world config index pc st pc' st' :
  Step world config index pc st pc' st' ->
  tor_running st' = tor_running st /\
  kills (trace st') = kills (trace st) /\
  launches (trace st') = launches (trace st).
Proof.
  intros H; inversion H; subst; simpl;
    rewrite ?kills_app, ?launches_app; simpl;
    rewrite ?(quiet_kills evs), ?(quiet_launches evs) by assumption;
    rewrite ?app_nil_r; auto.
Qed.

Lemma run_threads_frame world config schedule pool st pool' st' :
  run_threads world config schedule pool st = Some (pool', st') ->
  tor_running st' = tor_running st /\
  kills (trace st') = kills (trace st) /\
  launches (trace st') = launches (trace st).
Proof.
  intros Hrun.
  apply (run_threads_invariant world config
           (fun _ s => tor_running s = tor_running st /\
                       kills (trace s) = kills (trace st) /\
                       launches (trace s) = launches (trace st)))
    in Hrun; [tauto| |auto].
  intros p s i pc pc' s' (H1 & H2 & H3) _ Hf Hs.
  apply _tor_worker_step_Step in Hs; [|exact Hf].
  apply Step_frame in Hs. destruct Hs as (-> & -> & ->). auto.
Qed.

Lemma set_nth_length pool : forall i pc,
  List.length (set_nth i pc pool) = List.length pool.
Proof. induction pool; intros [|i] pc; simpl; auto. Qed.

Lemma run_threads_Inv world config n tasks schedule pool st pool' st' :
  List.length pool = n ->
  Inv world config n tasks pool st ->
  run_threads world config schedule pool st = Some (pool', st') ->
  Inv world config n tasks pool' st' /\
  Forall (fun pc => finished pc = true) pool'.
Proof.
  intros <- HI Hrun.
  apply (run_threads_invariant world config
           (fun p s => Inv world config (List.length pool) tasks p s /\
                       List.length p = List.length pool)) in Hrun;
    [tauto| |auto].
  clear HI. intros p s i pc pc' s' (HI & Hlen) Hnth Hf Hs.
  split; [|now rewrite set_nth_length].
  assert (Hi : i < List.length pool).
  { rewrite <- Hlen. apply nth_error_Some. congruence. }
  destruct (set_nth_split _ _ _ pc' Hnth) as (pre & post & -> & ->).
  eapply Inv_step; eauto using _tor_worker_step_Step.
Qed.

Lemma run_threads_survive world config n tasks schedule pool st pool' st' :
  List.length pool = n ->
  Forall (fun s => never_raises (scrape_handler s)) tasks ->
  Forall (accepted world config n) tasks ->
  Inv world config n tasks pool st -> Forall survives pool ->
  run_threads world config schedule pool st = Some (pool', st') ->
  Forall survives pool'.
Proof.
  intros <- Hnr Hacc HI Hs Hrun.
  apply (run_threads_invariant world config
           (fun p s => Inv world config (List.length pool) tasks p s /\
                       List.length p = List.length pool /\
                       Forall survives p)) in Hrun;
    [tauto| |auto].
  clear HI Hs. intros p s i pc pc' s' (HI & Hlen & Hs) Hnth Hf Hstep.
  assert (Hi : i < List.length pool).
  { rewrite <- Hlen. apply nth_error_Some. congruence. }
  split; [|split; [now rewrite set_nth_length|]];
    destruct (set_nth_split _ _ _ pc' Hnth) as (pre & post & -> & ->);
    apply _tor_worker_step_Step in Hstep; try exact Hf.
  - eapply Inv_step; eauto.
  - rewrite Forall_app in *. destruct Hs as (Hpre & Hpost).
    split; [exact Hpre|]. inversion Hpost; subst. constructor; [|assumption].
    eapply Inv_survives; eauto.
Qed.

(** Every statement of a running thread uses up one of the steps left,
    so a schedule that long lets every thread finish. *)
Lemma run_threads_terminates world config schedule : forall pool st,
  steps_left pool st <= List.length schedule ->
  exists pool' st', run_threads world config schedule pool st = Some (pool', st').
Proof.
  induction schedule as [|c schedule IH]; intros pool st Hlen; simpl in *.
  - destruct (alive pool) eqn:Ha; [eauto|].
    exfalso.
    assert (Hin : In n (alive pool)) by (rewrite Ha; now left).
    apply alive_from_spec in Hin. destruct Hin as (_ & pc & Hnth & Hf).
    destruct (nth_error_split _ _ Hnth) as (pre & post & -> & _).
    unfold steps_left in Hlen. rewrite weight_split in Hlen.
    destruct pc; simpl in *; try discriminate; lia.
  - destruct (alive pool) eqn:Ha; [eauto|].
    destruct (pick_alive c pool) as (i & Hpick); [congruence|].
    rewrite Hpick. destruct (pick_spec _ _ _ Hpick) as (pc & Hnth & Hf).
    rewrite (nth_error_nth _ _ Returned Hnth).
    destruct (_tor_worker_step world config i pc st) as [pc' st1] eqn:Hs.
    apply IH.
    destruct (set_nth_split _ _ _ pc' Hnth) as (pre & post & -> & ->).
    apply _tor_worker_step_Step in Hs; [|exact Hf].
    pose proof (steps_left_step _ _ pre _ post _ _ _ _ Hf Hs). lia.
Qed.

Lemma finished_holding pool :
  Forall (fun pc => finished pc = true) pool -> flat_map holding pool = [].
Proof.
  induction 1 as [|pc pool Hpc _ IH]; simpl; [reflexivity|].
  rewrite IH. destruct pc; simpl in *; try discriminate; reflexivity.
Qed.

Lemma finished_survives_Returned pool :
  Forall (fun pc => finished pc = true) pool -> Forall survives pool ->
  Forall (fun pc => pc = Returned) pool.
Proof.
  rewrite !Forall_forall. intros Hf Hs pc Hin.
  specialize (Hf pc Hin). specialize (Hs pc Hin).
  destruct pc; simpl in *; try discriminate; tauto.
Qed.

(** ** The main thread: starting and killing the processes *)

Lemma quiet_app a b : quiet a -> quiet b -> quiet (a ++ b).
Proof. unfold quiet. rewrite forallb_app. now intros -> ->. Qed.

Lemma Quiet_ret {A} (a : A) : Quiet (ret a).
Proof. intros st. exists (Ok a), []. now rewrite record_nil. Qed.

Lemma Quiet_raise {A} e : Quiet (@raise A e).
Proof. intros st. exists (Raise e), []. now rewrite record_nil. Qed.

Lemma Quiet_bind {A B} (m : M A) (k : A -> M B) :
  Quiet m -> (forall a, Quiet (k a)) -> Quiet (bind m k).
Proof.
  intros Hm Hk st. unfold bind.
  destruct (Hm st) as (r & evs & -> & Hq). destruct r as [a|e].
  - destruct (Hk a (record st evs)) as (r' & evs' & -> & Hq').
    exists r', (evs ++ evs'). rewrite record_record. auto using quiet_app.
  - eauto.
Qed.

Lemma Quiet_logger l m a : Quiet (logger l m a).
Proof. intros st. exists (Ok tt), [Log l m a]. now rewrite logger_eq. Qed.

Lemma Quiet_query world url socks_port : Quiet (_query world url socks_port).
Proof.
  intros st. pose proof (_query_cases world url socks_port st) as H. simpl in H.
  destruct (setopt_failure world _) as [e|].
  - exists (Raise e), []. now rewrite record_nil.
  - destruct (curl_outcome world _ _); rewrite H;
      eexists; eexists; (split; [reflexivity|reflexivity]).
Qed.

Lemma Quiet_for_each {A} (f : A -> M unit) xs :
  (forall x, Quiet (f x)) -> Quiet (for_each xs f).
Proof.
  intros Hf. induction xs as [|x xs IH]; simpl.
  - apply Quiet_ret.
  - apply Quiet_bind; auto.
Qed.

Lemma Quiet_tor_init_msg_handler line : Quiet (_tor_init_msg_handler line).
Proof.
  unfold _tor_init_msg_handler. destruct (Py.contains _ _); [|apply Quiet_ret].
  apply Quiet_bind.
  - unfold getitem. destruct (nth_error _ _); [apply Quiet_ret|apply Quiet_raise].
  - intros. apply Quiet_logger.
Qed.

Lemma Quiet_log_public_ip world config index :
  Quiet (log_public_ip world config index).
Proof.
  unfold log_public_ip. apply Quiet_bind.
  - unfold config_public_ip_url.
    destruct (public_ip_url config); [apply Quiet_ret|apply Quiet_raise].
  - intros u. destruct (negb _); [|apply Quiet_ret].
    apply Quiet_bind; [apply Quiet_query|]. intros r.
    apply Quiet_bind; [|intros; apply Quiet_logger].
    destruct r; [apply Quiet_ret|apply Quiet_raise].
Qed.

(** A launch asks for the process, reads its output and either fails,
    leaving the running processes as they were, or returns the new
    process, numbered by the launches before it. *)
Lemma launch_tor_with_config_cases world cmd cfg st :
  exists evs, quiet evs /\
    ((exists e,
        launch_tor_with_config world cmd cfg _tor_init_msg_handler st =
        (Raise e, record st (LaunchTor cmd cfg :: evs))) \/
     launch_tor_with_config world cmd cfg _tor_init_msg_handler st =
     (Ok (List.length (launches (trace st))),
      mkState (scrape_queue st) (unfinished_tasks st)
              (tor_running st ++ [List.length (launches (trace st))])
              (trace st ++ LaunchTor cmd cfg :: evs))).
Proof.
  unfold launch_tor_with_config, bind. rewrite emit_eq.
  destruct (Quiet_for_each _tor_init_msg_handler (tor_output world cfg)
              Quiet_tor_init_msg_handler (record st [LaunchTor cmd cfg]))
    as (r & evs & -> & Hq).
  exists evs. split; [exact Hq|]. rewrite record_record. simpl.
  destruct r as [[]|e]; [|left; eauto].
  destruct (tor_failure world cfg); [left; eexists; reflexivity|right].
  reflexivity.
Qed.

(** What the start-up loop does, told by the number [k] of launches it
    asked for and the processes [pids] it got. *)
Lemma start_tor_processes_spec world config indices :
  forall tor_processes st r st',
    start_tor_processes world config indices tor_processes st = (r, st') ->
    exists k pids evs,
      k <= List.length indices /\
      scrape_queue st' = scrape_queue st /\
      unfinished_tasks st' = unfinished_tasks st /\
      tor_running st' = tor_running st ++ pids /\
      trace st' = trace st ++ evs /\
      launches evs =
        map (fun i => (tor_cmd config, tor_config config i)) (firstn k indices) /\
      kills evs = [] /\ handled evs = [] /\ dequeued evs = [] /\
      match r with
      | Ok ps =>
          k = List.length indices /\ ps = tor_processes ++ pids /\
          pids = seq (List.length (launches (trace st))) (List.length indices)
      | Raise _ => True
      end.
Proof.
  induction indices as [|index indices IH]; intros procs st r st' H; simpl in H.
  - injection H as <- <-. exists 0, [], []. rewrite !app_nil_r. simpl. auto 12.
  - unfold bind at 1 in H.
    destruct (launch_tor_with_config_cases world (tor_cmd config)
                (tor_config config index) st) as (evs & Hq & [(e & He)|Hok]).
    + rewrite He in H. injection H as <- <-.
      exists 1, [], (LaunchTor (tor_cmd config) (tor_config config index) :: evs).
      simpl. rewrite app_nil_r, (quiet_launches evs), (quiet_kills evs),
        (quiet_handled evs), (quiet_dequeued evs) by assumption.
      repeat split; auto; lia.
    + rewrite Hok in H. clear Hok.
      set (pid := List.length (launches (trace st))) in *.
      set (st1 := mkState _ _ _ _) in H.
      unfold bind at 1 in H.
      destruct (Quiet_log_public_ip world config index st1)
        as (r1 & evs1 & Heq & Hq1).
      rewrite Heq in H. destruct r1 as [[]|e].
      * apply IH in H.
        destruct H as (k & pids & evs2 & Hk & H1 & H2 & H3 & H4 & H5 & H6 & H7 & H8 & H9).
        exists (S k), (pid :: pids),
          (LaunchTor (tor_cmd config) (tor_config config index) :: evs ++ evs1 ++ evs2).
        simpl in *. rewrite H1, H2, H3, H4. 
        rewrite <- !app_assoc. simpl.
        rewrite !launches_app, !kills_app, !handled_app, !dequeued_app.
        rewrite H5, H6, H7, H8.
        rewrite (quiet_launches evs), (quiet_kills evs), (quiet_handled evs),
          (quiet_dequeued evs), (quiet_launches evs1), (quiet_kills evs1),
          (quiet_handled evs1), (quiet_dequeued evs1) by assumption.
        simpl. repeat split; auto; try lia.
        destruct r as [ps|]; auto.
        destruct H9 as (-> & -> & ->). repeat split; auto.
        -- now rewrite <- app_assoc.
        -- f_equal. f_equal. rewrite !launches_app. simpl.
           rewrite (quiet_launches evs), (quiet_launches evs1) by assumption.
           rewrite !length_app. simpl. fold pid. lia.
      * injection H as <- <-.
        exists 1, [pid],
          (LaunchTor (tor_cmd config) (tor_config config index) :: evs ++ evs1).
        simpl. rewrite <- !app_assoc. simpl.
        rewrite !launches_app, !kills_app, !handled_app, !dequeued_app.
        rewrite (quiet_launches evs), (quiet_kills evs), (quiet_handled evs),
          (quiet_dequeued evs), (quiet_launches evs1), (quiet_kills evs1),
          (quiet_handled evs1), (quiet_dequeued evs1) by assumption.
        simpl. repeat split; auto; lia.
Qed.

Lemma kill_all_spec pids : forall st,
  exists st',
    for_each pids kill st = (Ok tt, st') /\
    scrape_queue st' = scrape_queue st /\
    unfinished_tasks st' = unfinished_tasks st /\
    trace st' = trace st ++ map Kill pids /\
    tor_running st' =
      filter (fun p => negb (existsb (Nat.eqb p) pids)) (tor_running st).
Proof.
  induction pids as [|pid pids IH]; intros st; simpl.
  - exists st. rewrite app_nil_r. repeat split; auto.
    induction (tor_running st) as [|p l IHl]; simpl; congruence.
  - unfold bind, kill at 1.
    destruct (IH (mkState (scrape_queue st) (unfinished_tasks st)
                   (filter (fun p => negb (Nat.eqb p pid)) (tor_running st))
                   (trace st ++ [Kill pid]))) as (st' & -> & H1 & H2 & H3 & H4).
    exists st'. simpl in *. rewrite H1, H2, H3, H4, <- app_assoc.
    repeat split; auto. clear.
    induction (tor_running st) as [|p l IHl]; simpl; [reflexivity|].
    destruct (Nat.eqb p pid); simpl; [exact IHl|].
    destruct (existsb _ pids); simpl; congruence.
Qed.


Lemma filter_killed (pids : list nat) :
  filter (fun p => negb (existsb (Nat.eqb p) pids)) pids = [].
Proof.
  assert (H : forall l, incl l pids ->
            filter (fun p => negb (existsb (Nat.eqb p) pids)) l = []).
  { induction l as [|p l IH]; intros Hincl; simpl; [reflexivity|].
    assert (Hp : existsb (Nat.eqb p) pids = true).
    { apply existsb_exists. exists p. split; [apply Hincl; now left|apply Nat.eqb_refl]. }
    rewrite Hp. simpl. apply IH. intros x Hx. apply Hincl. now right. }
  apply H, incl_refl.
Qed.

(** ** A fresh object with its queue filled *)

Lemma add_scrapes_spec requests : forall st,
  exists st',
    add_scrapes requests st = (Ok tt, st') /\
    trace st' = trace st /\ tor_running st' = tor_running st /\
    List.length (scrape_queue st') = List.length (scrape_queue st) + List.length requests /\
    unfinished_tasks st' = unfinished_tasks st + List.length requests.
Proof.
  unfold add_scrapes.
  induction requests as [|[[url context] handler] requests IH]; intros st; simpl.
  - exists st. repeat split; auto.
  - unfold bind, add_scrape at 1, queue_put at 1.
    destruct (IH (mkState (scrape_queue st ++
                    [mkScrape url context
                       match handler with None => default_handler | Some h => h end])
                   (S (unfinished_tasks st)) (tor_running st) (trace st)))
      as (st' & -> & H1 & H2 & H3 & H4).
    exists st'. simpl in *. rewrite length_app in H3. simpl in H3.
    repeat split; auto; lia.
Qed.

Lemma enqueued_spec requests :
  trace (enqueued requests) = [] /\
  tor_running (enqueued requests) = [] /\
  List.length (scrape_queue (enqueued requests)) = List.length requests /\
  unfinished_tasks (enqueued requests) = List.length requests.
Proof.
  unfold enqueued.
  destruct (add_scrapes_spec requests init) as (st' & -> & H1 & H2 & H3 & H4).
  simpl in *. auto.
Qed.

(** ** [run] as a whole *)

(** [run] either fails while starting the processes, or starts them all,
    lets the threads finish and kills what it started. *)
Lemma run_cases world config schedule st r st' :
  run world config schedule st = Some (r, st') ->
  (exists e,
      r = Raise e /\
      start_tor_processes world config (range (thread_count config)) [] st =
      (Raise e, st')) \/
  (exists tor_processes st1 pool st2,
      r = Ok tt /\
      start_tor_processes world config (range (thread_count config)) [] st =
      (Ok tor_processes, st1) /\
      run_threads world config schedule
        (map (fun _ => AtStart) (range (thread_count config))) st1 =
      Some (pool, st2) /\
      for_each tor_processes kill st2 = (Ok tt, st')).
Proof.
  unfold run. intros H.
  destruct (start_tor_processes _ _ _ _ _) as [[procs|e] st1] eqn:Hstart.
  - destruct (run_threads _ _ _ _ _) as [[pool st2]|] eqn:Hrun; [|discriminate].
    destruct (kill_all_spec procs st2) as (st3 & Hk & _).
    rewrite Hk in H. injection H as <- <-. right. eauto 10.
  - injection H as <- <-. left. eauto.
Qed.

Lemma holding_AtStart {A} (l : list A) :
  flat_map holding (map (fun _ => AtStart) l) = [].
Proof. induction l; simpl; auto. Qed.

Lemma owes_AtStart {A} (l : list A) :
  list_sum (map owes (map (fun _ => AtStart) l)) = 0.
Proof. induction l; simpl; auto. Qed.

Lemma weight_AtStart {A} (l : list A) :
  list_sum (map weight (map (fun _ => AtStart) l)) = 2 * List.length l.
Proof. induction l; simpl; lia. Qed.

Lemma survives_AtStart {A} (l : list A) :
  Forall survives (map (fun _ => AtStart) l).
Proof. induction l; simpl; constructor; simpl; auto. Qed.

Lemma run_threads_length world config schedule pool st pool' st' :
  run_threads world config schedule pool st = Some (pool', st') ->
  List.length pool' = List.length pool.
Proof.
  intros Hrun.
  apply (run_threads_invariant world config
           (fun p _ => List.length p = List.length pool)) in Hrun; [tauto| |auto].
  intros p s i pc pc' s' H _ _ _. now rewrite set_nth_length.
Qed.

(** A normal return of [run] on a fresh object, taken apart: the state
    [st1] in which the threads start, their final pool and state [st2],
    and the final state. *)
Lemma run_Ok_fresh world config requests schedule st' :
  run world config schedule (enqueued requests) = Some (Ok tt, st') ->
  let n := Z.to_nat (thread_count config) in
  let tasks := scrape_queue (enqueued requests) in
  exists st1 pool st2,
    launches (trace st1) =
      map (fun i => (tor_cmd config, tor_config config i)) (seq 0 n) /\
    run_threads world config schedule (map (fun _ => AtStart) (seq 0 n)) st1 =
      Some (pool, st2) /\
    Inv world config n tasks (map (fun _ => AtStart) (seq 0 n)) st1 /\
    steps_left (map (fun _ => AtStart) (seq 0 n)) st1 =
      5 * List.length requests + 2 * n /\
    Inv world config n tasks pool st2 /\
    Forall (fun pc => finished pc = true) pool /\
    List.length pool = n /\
    launches (trace st2) = launches (trace st1) /\
    kills (trace st2) = [] /\
    trace st' = trace st2 ++ map Kill (seq 0 n) /\
    scrape_queue st' = scrape_queue st2 /\
    tor_running st' = [].
Proof.
  intros H n tasks. apply run_cases in H.
  destruct H as [(e & [=] & _)|(procs & st1 & pool & st2 & _ & Hstart & Hrun & Hkill)].
  destruct (enqueued_spec requests) as (Htr & Hrunning & Hlen & Hunf).
  apply start_tor_processes_spec in Hstart.
  destruct Hstart as (k & pids & evs & _ & Hq & Hu & Hr & Ht & Hl & Hk & Hh & Hd & -> & -> & ->).
  rewrite Htr in *. rewrite Hrunning in *. simpl in *.
  unfold range in *. rewrite length_seq in *. fold n in Hrun, Hl, Hr, Hkill |- *.
  rewrite firstn_all2 in Hl by (rewrite length_seq; lia).
  assert (HI : Inv world config n tasks (map (fun _ => AtStart) (seq 0 n)) st1).
  { unfold Inv.
    rewrite Ht, Hd, Hq, Hu, holding_AtStart, owes_AtStart, count_died_AtStart,
      (handled_nil_faults _ Hh), Hh.
    simpl. split; [reflexivity|]. split.
    - exists []. simpl. split; [constructor|]. split; [constructor|].
      rewrite Hlen, Hunf. split; lia.
    - intros Hin. apply in_map_iff in Hin. destruct Hin as (? & [=] & _). }
  assert (Hn : List.length (map (fun _ : nat => AtStart) (seq 0 n)) = n)
    by now rewrite length_map, length_seq.
  destruct (run_threads_Inv _ _ _ _ _ _ _ _ _ Hn HI Hrun) as (HI2 & Hfin).
  destruct (run_threads_frame _ _ _ _ _ _ _ Hrun) as (Hr2 & Hk2 & Hl2).
  destruct (kill_all_spec (seq 0 n) st2) as (st3 & Hk3 & Hq3 & _ & Ht3 & Hr3).
  rewrite Hkill in Hk3. injection Hk3 as <-.
  exists st1, pool, st2.
  split; [now rewrite Ht|]. split; [exact Hrun|]. split; [exact HI|].
  split.
  { unfold steps_left. rewrite weight_AtStart, length_seq, Hq, Hlen. reflexivity. }
  split; [exact HI2|]. split; [exact Hfin|].
  split.
  { apply run_threads_length in Hrun. now rewrite Hrun, length_map, length_seq. }
  split; [exact Hl2|]. split; [now rewrite Hk2, Ht|].
  split; [exact Ht3|]. split; [exact Hq3|].
  rewrite Hr3, Hr2, Hr. apply filter_killed.
Qed.

Lemma run_returns world config requests schedule :
  5 * List.length requests + 2 * Z.to_nat (thread_count config)
    <= List.length schedule ->
  exists r st', run world config schedule (enqueued requests) = Some (r, st').
Proof.
  intros Hlen. unfold run.
  destruct (start_tor_processes _ _ _ _ _) as [[procs|e] st1] eqn:Hstart; [|eauto].
  apply start_tor_processes_spec in Hstart.
  destruct Hstart as (k & pids & evs & _ & Hq & _).
  destruct (enqueued_spec requests) as (_ & _ & Hl & _).
  destruct (run_threads_terminates world config schedule
              (map (fun _ => AtStart) (range (thread_count config))) st1)
    as (pool & st2 & ->).
  { unfold steps_left, range. rewrite weight_AtStart, length_seq, Hq, Hl. exact Hlen. }
  destruct (kill_all_spec procs st2) as (st3 & -> & _). eauto.
Qed.

Lemma nth_error_set_nth pool : forall i j pc pc',
  nth_error pool i = Some pc ->
  nth_error (set_nth i pc' pool) j =
  if Nat.eqb i j then Some pc' else nth_error pool j.
Proof.
  induction pool as [|p pool IH]; intros [|i] [|j] pc pc' H; simpl in *;
    try discriminate; auto.
  eapply IH; eauto.
Qed.

Lemma Step_trace world config index pc st pc' st' :
  Step world config index pc st pc' st' -> exists evs, trace st' = trace st ++ evs.
Proof.
  intros H; inversion H; subst; simpl; eauto.
  all: exists []; now rewrite app_nil_r.
Qed.

(** A worker that has returned has seen the queue empty. *)
Lemma run_threads_Returned world config schedule pool st pool' st' :
  (forall i, nth_error pool i <> Some Returned) ->
  run_threads world config schedule pool st = Some (pool', st') ->
  forall i, nth_error pool' i = Some Returned -> In (Get i None) (trace st').
Proof.
  intros H0 Hrun.
  apply (run_threads_invariant world config
           (fun p s => forall i, nth_error p i = Some Returned ->
                                 In (Get i None) (trace s))) in Hrun.
  - tauto.
  - intros p s i pc pc' s' HP Hnth Hf Hs j Hj.
    rewrite (nth_error_set_nth _ _ _ _ _ Hnth) in Hj.
    apply _tor_worker_step_Step in Hs; [|exact Hf].
    destruct (Nat.eqb_spec i j) as [->|Hne].
    + injection Hj as ->. inversion Hs; subst. simpl.
      apply in_or_app. right. now left.
    + destruct (Step_trace _ _ _ _ _ _ _ Hs) as (evs & ->).
      apply in_or_app. left. auto.
  - intros i Hi. now apply H0 in Hi.
Qed.

Lemma handled_map_Kill pids : handled (map Kill pids) = [].
Proof. induction pids; simpl; auto. Qed.

Lemma launches_map_Kill pids : launches (map Kill pids) = [].
Proof. induction pids; simpl; auto. Qed.

Lemma dequeued_map_Kill pids : dequeued (map Kill pids) = [].
Proof. induction pids; simpl; auto. Qed.

(** Workers that have all finished and of which none died hold nothing
    and dropped nothing. *)
Lemma count_died_survives pool :
  Forall survives pool -> count_died pool = 0.
Proof.
  induction 1 as [|pc pool Hpc _ IH]; [reflexivity|].
  unfold count_died in *. simpl. destruct pc; simpl in *; tauto.
Qed.

(** With at least one thread, handlers that do not raise and options
    that pycurl takes, a normal return of [run] leaves the queue empty,
    every task taken and handled once, and every worker returned after
    seeing the queue empty. *)
Lemma run_drains_queue world config requests schedule st' :
  (0 < thread_count config)%Z ->
  Forall (fun s => never_raises (scrape_handler s))
         (scrape_queue (enqueued requests)) ->
  Forall (accepted world config (Z.to_nat (thread_count config)))
         (scrape_queue (enqueued requests)) ->
  run world config schedule (enqueued requests) = Some (Ok tt, st') ->
  Permutation (handled (trace st')) (scrape_queue (enqueued requests)) /\
  scrape_queue st' = [] /\
  dequeued (trace st') = scrape_queue (enqueued requests) /\
  (forall i, i < Z.to_nat (thread_count config) -> In (Get i None) (trace st')).
Proof.
  intros Hn Hnr Hacc Hrun. apply run_Ok_fresh in Hrun. cbv zeta in Hrun.
  destruct Hrun as (st1 & pool & st2 & _ & Hrun & HI1 & _ & HI2 & Hfin & Hlen &
                    _ & _ & Ht & Hq & _).
  assert (Hlen1 : List.length (map (fun _ : nat => AtStart)
                                 (seq 0 (Z.to_nat (thread_count config)))) =
                  Z.to_nat (thread_count config))
    by now rewrite length_map, length_seq.
  pose proof (run_threads_survive _ _ _ _ _ _ _ _ _ Hlen1 Hnr Hacc HI1
                (survives_AtStart _) Hrun) as Hsurv.
  pose proof (finished_survives_Returned _ Hfin Hsurv) as Hret.
  assert (Hobs : forall i, i < Z.to_nat (thread_count config) ->
                           nth_error pool i = Some Returned).
  { intros i Hi. destruct (nth_error pool i) as [pc|] eqn:E.
    - rewrite Forall_forall in Hret. f_equal. apply Hret.
      eapply nth_error_In; eauto.
    - apply nth_error_None in E. lia. }
  destruct HI2 as (Hfifo & (dropped & Hperm & _ & _ & Hdied) & Hempty).
  assert (Hq2 : scrape_queue st2 = []).
  { apply Hempty. apply (nth_error_In pool 0). apply Hobs. lia. }
  rewrite Hq2, app_nil_r in Hfifo.
  rewrite (count_died_survives _ Hsurv) in Hdied.
  assert (Hd : dropped = []) by (destruct dropped; [reflexivity|simpl in Hdied; lia]).
  subst dropped.
  rewrite (finished_holding _ Hfin), !app_nil_r, Hfifo in Hperm.
  rewrite Ht, handled_app, handled_map_Kill, dequeued_app, dequeued_map_Kill,
    !app_nil_r, Hq.
  split; [exact Hperm|]. split; [exact Hq2|]. split; [exact Hfifo|].
  intros i Hi. apply in_or_app. left.
  eapply run_threads_Returned; eauto.
  intros j Hj. apply nth_error_In, in_map_iff in Hj.
  destruct Hj as (? & [=] & _).
Qed.

(** * The claims *)

(** ** C1: every task is handled exactly once *)

(** C1, as amended. On a fresh object whose tasks were all added with
    [add_scrape] before [run], with at least one thread, with handlers
    that do not raise and with URLs and ports that pycurl takes as the
    options of a fetch: [run] comes back under every schedule that gives
    the threads enough steps, and whenever it returns normally the
    handlers invoked are, counted with multiplicity, exactly the tasks
    that were queued, the queue is empty, and every worker has seen the
    queue empty; with no task at all no handler is invoked. *)
Theorem run_handles_every_task_once world config requests schedule :
  (0 < thread_count config)%Z ->
  Forall (fun s => never_raises (scrape_handler s))
         (scrape_queue (enqueued requests)) ->
  Forall (accepted world config (Z.to_nat (thread_count config)))
         (scrape_queue (enqueued requests)) ->
  (5 * List.length requests + 2 * Z.to_nat (thread_count config)
     <= List.length schedule ->
   exists r st', run world config schedule (enqueued requests) = Some (r, st')) /\
  (forall st',
     run world config schedule (enqueued requests) = Some (Ok tt, st') ->
     Permutation (handled (trace st')) (scrape_queue (enqueued requests)) /\
     scrape_queue st' = [] /\
     (forall i, i < Z.to_nat (thread_count config) ->
                In (Get i None) (trace st')) /\
     (requests = [] -> handled (trace st') = [])).
Proof.
  intros Hn Hnr Hacc. split; [apply run_returns|].
  intros st' Hrun.
  destruct (run_drains_queue _ _ _ _ _ Hn Hnr Hacc Hrun) as (Hperm & Hq & _ & Hobs).
  repeat split; auto.
  intros ->. simpl in Hperm. now apply Permutation_sym, Permutation_nil in Hperm.
Qed.

Lemma run_handles_every_task_once_witness :
  (5 * 3 + 2 * 2 <= 40 ->
   exists r st',
     run Examples.world_second_fetch_fails (Examples.config_of 2)
         (Examples.alternating 40) (enqueued Examples.three_requests) =
     Some (r, st')) /\
  (forall st',
     run Examples.world_second_fetch_fails (Examples.config_of 2)
         (Examples.alternating 40) (enqueued Examples.three_requests) =
     Some (Ok tt, st') ->
     Permutation (handled (trace st'))
                 (scrape_queue (enqueued Examples.three_requests)) /\
     scrape_queue st' = [] /\
     (forall i, i < 2 -> In (Get i None) (trace st')) /\
     (Examples.three_requests = [] -> handled (trace st') = [])).
Proof.
  apply (run_handles_every_task_once Examples.world_second_fetch_fails
           (Examples.config_of 2) Examples.three_requests
           (Examples.alternating 40)).
  - reflexivity.
  - repeat constructor.
  - repeat (constructor; [intros i Hi; reflexivity|]). constructor.
Defined.

(** C1 as stated fails: with one thread and a first task whose handler
    raises, [run] returns normally although the second task's handler
    was never invoked and the task is still on the queue. *)
Lemma run_loses_tasks_after_handler_fault :
  (0 < thread_count (Examples.config_of 1))%Z /\
  exists st',
    run Examples.world_ok (Examples.config_of 1) (Examples.first_running 12)
        (enqueued Examples.faulty_requests) = Some (Ok tt, st') /\
    List.length (handled (trace st')) = 1 /\
    List.length (scrape_queue (enqueued Examples.faulty_requests)) = 2 /\
    ~ Permutation (handled (trace st'))
                  (scrape_queue (enqueued Examples.faulty_requests)).
Proof.
  split; [reflexivity|]. eexists. split; [vm_compute; reflexivity|].
  split; [reflexivity|]. split; [reflexivity|].
  intros H. apply Permutation_length in H. discriminate H.
Qed.

(** ** C2: the processes started are killed *)

Lemma run_Raise world config schedule st e st' :
  run world config schedule st = Some (Raise e, st') ->
  exists started,
    kills (trace st') = kills (trace st) /\
    tor_running st' = tor_running st ++ started /\
    handled (trace st') = handled (trace st) /\
    dequeued (trace st') = dequeued (trace st) /\
    scrape_queue st' = scrape_queue st.
Proof.
  intros H. apply run_cases in H.
  destruct H as [(e' & _ & Hstart)|(? & ? & ? & ? & [=] & _)].
  apply start_tor_processes_spec in Hstart.
  destruct Hstart as (k & pids & evs & _ & Hq & _ & Hr & Ht & _ & Hk & Hh & Hd & _).
  exists pids. rewrite Ht, kills_app, handled_app, dequeued_app, Hk, Hh, Hd, !app_nil_r.
  auto.
Qed.




(** ** C3: a failed fetch is a value, not an exception *)

Lemma handled_calls tr : map fst (calls tr) = handled tr.
Proof.
  induction tr as [|[] tr IH]; simpl; auto. now rewrite IH.
Qed.

(** C3, as amended. [_query] turns the failure of a transfer into a
    value: once the options of the handle are set, it returns whatever
    the outcome of the transfer, and when [curl.perform()] fails with a
    [pycurl.error] it returns [None] after writing to the error log.
    What setting the options raises is not caught: [_query] then raises
    it, before any transfer and with nothing logged. So a worker whose
    options pycurl takes goes on from the fetch to call the handler,
    with the queue untouched; and under any pattern of failed transfers
    a run with handlers that do not raise and options that pycurl takes
    still calls the handler of every queued task once. *)
Theorem fetch_failure_is_a_value world config requests schedule
    url socks_port index scrape st :
  (0 < thread_count config)%Z ->
  Forall (fun s => never_raises (scrape_handler s))
         (scrape_queue (enqueued requests)) ->
  Forall (accepted world config (Z.to_nat (thread_count config)))
         (scrape_queue (enqueued requests)) ->
  match setopt_failure world
          (mkCurl url "localhost" socks_port PROXYTYPE_SOCKS5_HOSTNAME) with
  | Some e => _query world url socks_port st = (Raise e, st)
  | None =>
      exists result evs,
        _query world url socks_port st = (Ok result, record st evs) /\
        quiet evs /\
        forall code msg,
          curl_outcome world (List.length (performs (trace st)))
            (mkCurl url "localhost" socks_port PROXYTYPE_SOCKS5_HOSTNAME) =
          failure code msg ->
          result = None /\
          In (Log ERROR "Unable to reach %s (%s)"
                  [PyStr url; PyExc (pycurl_error code msg)]) evs
  end /\
  (setopt_failure world (worker_curl config index scrape) = None ->
   exists result st1,
      _tor_worker_step world config index (AtQuery scrape) st =
      (AtCall scrape result, st1) /\
      scrape_queue st1 = scrape_queue st) /\
  (forall st',
      run world config schedule (enqueued requests) = Some (Ok tt, st') ->
      Permutation (map fst (calls (trace st')))
                  (scrape_queue (enqueued requests))).
Proof.
  intros Hn Hnr Hacc. split; [|split].
  - pose proof (_query_cases world url socks_port st) as H. cbv zeta in H.
    destruct (setopt_failure world _); [exact H|].
    destruct (curl_outcome world _ _) as [bytes|code msg] eqn:E;
      rewrite H; eexists; eexists; (split; [reflexivity|]);
      (split; [reflexivity|]); intros c m [=]; subst.
    split; [reflexivity|]. simpl; auto.
  - intros Hs. simpl. unfold goto.
    destruct (_query_quiet world (scrape_url scrape)
                (socks_port_offset config + Z.of_nat index) st Hs)
      as (r & evs & -> & _).
    eauto.
  - intros st' Hrun. rewrite handled_calls.
    now destruct (run_drains_queue _ _ _ _ _ Hn Hnr Hacc Hrun).
Qed.

Lemma fetch_failure_is_a_value_witness :
  exists st',
    run Examples.world_second_fetch_fails (Examples.config_of 1)
        (Examples.first_running 30) (enqueued Examples.three_requests) =
    Some (Ok tt, st') /\
    map snd (calls (trace st')) = [Some "page"; None; Some "page"] /\
    Permutation (map fst (calls (trace st')))
                (scrape_queue (enqueued Examples.three_requests)).
Proof.
  eexists. split; [vm_compute; reflexivity|]. split; [reflexivity|].
  refine (proj2 (proj2
    (fetch_failure_is_a_value Examples.world_second_fetch_fails
       (Examples.config_of 1) Examples.three_requests
       (Examples.first_running 30) "http://a" 9250 0
       (mkScrape "http://a" PyNone default_handler) init _ _ _)) _ _).
  - reflexivity.
  - repeat constructor.
  - repeat (constructor; [intros i Hi; reflexivity|]). constructor.
  - vm_compute; reflexivity.
Defined.

(** C3 as stated fails: [_query] does raise. For a URL with a NUL byte
    pycurl raises out of [setopt], and for a port that is no port number
    the [pycurl.error] of [setopt] is not caught either, the [try]
    holding [perform] only. A worker that fetches such a URL dies with
    the task it took: with one thread [run] returns normally with no
    handler called, the second task still on the queue and both tasks
    unfinished. *)
Lemma setopt_error_leaves_query :
  (exists e,
      _query Examples.world_strict Examples.nul_url 9250 init = (Raise e, init)) /\
  (exists code msg,
      _query Examples.world_strict "http://a" 70000 init =
      (Raise (pycurl_error code msg), init)) /\
  (exists e,
      _tor_worker_step Examples.world_strict (Examples.config_of 1) 0
        (AtQuery Examples.nul_scrape) init = (Died e, init)) /\
  exists st',
    run Examples.world_strict (Examples.config_of 1) (Examples.first_running 12)
        (enqueued Examples.nul_requests) = Some (Ok tt, st') /\
    handled (trace st') = [] /\
    performs (trace st') = [] /\
    scrape_queue st' = [mkScrape "http://b" PyNone default_handler] /\
    unfinished_tasks st' = 2.
Proof.
  split; [eexists; vm_compute; reflexivity|].
  split; [eexists; eexists; vm_compute; reflexivity|].
  split; [eexists; vm_compute; reflexivity|].
  eexists. split; [vm_compute; reflexivity|].
  split; [reflexivity|]. split; [reflexivity|]. split; reflexivity.
Qed.

(** ** C4: a handler that raises *)




(** ** C5: the configuration of the circuits *)

Lemma str_inj a b : Py.str a = Py.str b -> a = b.
Proof.
  unfold Py.str. intros H. apply DecimalZ.to_int_inj.
  assert (Hnn : forall z, Z.to_int z <> Decimal.Pos Decimal.Nil /\
                          Z.to_int z <> Decimal.Neg Decimal.Nil).
  { intros [|p|p]; simpl; split; try discriminate;
      intros [=E]; now apply DecimalPos.Unsigned.to_uint_nonnil in E. }
  destruct (Hnn a) as (Ha1 & Ha2). destruct (Hnn b) as (Hb1 & Hb2).
  pose proof (NilZero.isi _ Ha1 Ha2) as Ea.
  pose proof (NilZero.isi _ Hb1 Hb2) as Eb.
  rewrite H in Ea. congruence.
Qed.

Lemma string_app_inv_head (p a b : string) :
  (p ++ a)%string = (p ++ b)%string -> a = b.
Proof. induction p as [|c p IH]; simpl; intros H; [exact H|]. injection H. exact IH. Qed.

(** C5. When [run] returns normally on a fresh object it has asked for
    exactly [thread_count] processes, and the [i]-th of them with socks
    port [socks_port_offset + i], control port [control_port_offset + i]
    and data directory [data_directory] followed by [i], each written in
    decimal; the data directories of different circuits differ. *)
Theorem circuits_are_configured_by_index world config requests schedule st' :
  run world config schedule (enqueued requests) = Some (Ok tt, st') ->
  List.length (launches (trace st')) = Z.to_nat (thread_count config) /\
  (forall i, i < Z.to_nat (thread_count config) ->
     exists c,
       nth_error (launches (trace st')) i = Some (tor_cmd config, c) /\
       SocksPort c = Py.str (socks_port_offset config + Z.of_nat i) /\
       ControlPort c = Py.str (control_port_offset config + Z.of_nat i) /\
       DataDirectory c =
         (data_directory config ++ Py.str (Z.of_nat i))%string) /\
  (forall i j, i <> j ->
     DataDirectory (tor_config config i) <> DataDirectory (tor_config config j)) /\
  NoDup (map (fun l => DataDirectory (snd l)) (launches (trace st'))).
Proof.
  intros Hrun. apply run_Ok_fresh in Hrun. cbv zeta in Hrun.
  destruct Hrun as (st1 & pool & st2 & Hl1 & _ & _ & _ & _ & _ & _ & Hl2 & _ &
                    Ht & _ & _).
  assert (Hl : launches (trace st') =
               map (fun i => (tor_cmd config, tor_config config i))
                   (seq 0 (Z.to_nat (thread_count config))))
    by now rewrite Ht, launches_app, launches_map_Kill, app_nil_r, Hl2.
  assert (Hinj : forall i j,
            DataDirectory (tor_config config i) =
            DataDirectory (tor_config config j) -> i = j).
  { simpl. intros i j H. apply string_app_inv_head, str_inj in H. lia. }
  rewrite Hl. split; [now rewrite length_map, length_seq|]. split; [|split].
  - intros i Hi. exists (tor_config config i). split; [|now simpl].
    rewrite nth_error_map, nth_error_seq.
    destruct (Nat.ltb_spec i (Z.to_nat (thread_count config))); [reflexivity|lia].
  - intros i j Hne H. now apply Hinj in H.
  - rewrite map_map. simpl.
    apply Finite.Injective_map_NoDup; [|apply seq_NoDup].
    intros i j H. now apply (Hinj i j).
Qed.

Lemma circuits_are_configured_by_index_witness :
  exists st',
    run Examples.world_ok (Examples.config_of 3) (Examples.alternating 40)
        (enqueued Examples.three_requests) = Some (Ok tt, st') /\
    launches (trace st') =
      [("tor.real", mkTorConfig "9250" "9350" "tor_data/0");
       ("tor.real", mkTorConfig "9251" "9351" "tor_data/1");
       ("tor.real", mkTorConfig "9252" "9352" "tor_data/2")] /\
    List.length (launches (trace st')) = 3 /\
    NoDup (map (fun l => DataDirectory (snd l)) (launches (trace st'))).
Proof.
  eexists. split; [vm_compute; reflexivity|]. split; [reflexivity|].
  edestruct (circuits_are_configured_by_index Examples.world_ok
               (Examples.config_of 3) Examples.three_requests
               (Examples.alternating 40)) as (H1 & _ & _ & H2);
    [vm_compute; reflexivity|].
  split; [exact H1|exact H2].
Defined.

(** ** C6: the public-IP probe *)

(** What lines 77-83 do for circuit [index], by the value of
    [public_ip_url], by whether pycurl takes the options of the probe
    and by the outcome of the transfer. *)
Lemma log_public_ip_cases world config index st :
  match public_ip_url config with
  | None =>
      log_public_ip world config index st = (Raise (KeyError "public_ip_url"), st)
  | Some u =>
      if String.eqb u "" then log_public_ip world config index st = (Ok tt, st)
      else
        let curl := mkCurl u "localhost"
                      (socks_port_offset config + Z.of_nat index)
                      PROXYTYPE_SOCKS5_HOSTNAME in
        match setopt_failure world curl with
        | Some e => log_public_ip world config index st = (Raise e, st)
        | None =>
            match curl_outcome world (List.length (performs (trace st))) curl with
            | body bytes =>
                log_public_ip world config index st =
                (Ok tt, record st [Perform curl;
                                   Log INFO ("Public IP: " ++ bytes)%string []])
            | failure code msg =>
                log_public_ip world config index st =
                (Raise (TypeError "cannot concatenate 'str' and 'NoneType' objects"),
                 record st [Perform curl;
                            Log ERROR "Unable to reach %s (%s)"
                                [PyStr u; PyExc (pycurl_error code msg)]])
            end
        end
  end.
Proof.
  unfold log_public_ip, config_public_ip_url, bind.
  destruct (public_ip_url config) as [u|]; [|reflexivity]. simpl.
  destruct (String.eqb u ""); simpl; [reflexivity|].
  pose proof (_query_cases world u (socks_port_offset config + Z.of_nat index) st) as H.
  cbv zeta in H.
  destruct (setopt_failure world _); [now rewrite H|].
  destruct (curl_outcome world _ _); rewrite H; simpl.
  - unfold logger. now rewrite emit_eq, record_record.
  - reflexivity.
Qed.

(** C6, evaluated where the code departs from it. With the probe
    configured and the network down, [_query] logs the failure and
    returns [None], and the concatenation with ['Public IP: '] raises
    [TypeError] out of [run]: no thread is started and the Tor process
    just launched is left running. With the key [public_ip_url] missing
    from the config, [run] ends with [KeyError] after the first launch.
    Only the empty string switches the probe off. *)
Theorem probe_failure_is_fatal :
  (exists st',
      run Examples.world_offline Examples.config_probe
          (Examples.first_running 30) (enqueued Examples.three_requests) =
      Some (Raise (TypeError "cannot concatenate 'str' and 'NoneType' objects"),
            st') /\
      logged (trace st') =
        [(INFO, "Bootstrapped 0%: Starting", []);
         (INFO, "Bootstrapped 100%: Done", []);
         (ERROR, "Unable to reach %s (%s)",
          [PyStr "https://api.ipify.org";
           PyExc (pycurl_error 28 "Connection timed out")])] /\
      handled (trace st') = [] /\
      tor_running st' = [0] /\ kills (trace st') = []) /\
  (exists st',
      run Examples.world_ok Examples.config_no_url
          (Examples.first_running 30) (enqueued Examples.three_requests) =
      Some (Raise (KeyError "public_ip_url"), st') /\
      handled (trace st') = [] /\
      tor_running st' = [0] /\ kills (trace st') = []) /\
  (exists st',
      run Examples.world_offline (Examples.config_of 1)
          (Examples.first_running 30) (enqueued []) = Some (Ok tt, st') /\
      performs (trace st') = []).
Proof.
  split; [|split]; eexists; (split; [vm_compute; reflexivity|]); repeat split.
Qed.

(** ** C7: what the handler receives *)

(** C7, as amended. The worker hands the handler exactly what [_query]
    returned. After a transfer that succeeded this is the body; after a
    transfer that failed it is [None], whatever the cause: code and
    message of the [pycurl.error] go to the error log together with the
    URL, and nowhere else. When setting the options of the fetch raises
    there is no transfer and no call of the handler: the worker ends
    with that exception. *)
Theorem handler_receives_body_or_None world config index scrape st :
  let curl := mkCurl (scrape_url scrape) "localhost"
                (socks_port_offset config + Z.of_nat index)
                PROXYTYPE_SOCKS5_HOSTNAME in
  match setopt_failure world curl with
  | Some e =>
      _tor_worker_step world config index (AtQuery scrape) st = (Died e, st)
  | None =>
      match curl_outcome world (List.length (performs (trace st))) curl with
      | body bytes =>
          _tor_worker_step world config index (AtQuery scrape) st =
          (AtCall scrape (Some bytes), record st [Perform curl])
      | failure code msg =>
          _tor_worker_step world config index (AtQuery scrape) st =
          (AtCall scrape None,
           record st [Perform curl;
                      Log ERROR "Unable to reach %s (%s)"
                          [PyStr (scrape_url scrape);
                           PyExc (pycurl_error code msg)]])
      end
  end /\
  forall result st1,
    calls (trace (snd (_tor_worker_step world config index
                         (AtCall scrape result) st1))) =
    calls (trace st1) ++ [(scrape, result)].
Proof.
  intros curl. split.
  - pose proof (_query_cases world (scrape_url scrape)
                  (socks_port_offset config + Z.of_nat index) st) as H.
    cbv zeta in H. fold curl in H. simpl. unfold goto.
    destruct (setopt_failure world curl); [now rewrite H|].
    destruct (curl_outcome world _ curl); now rewrite H.
  - intros result st1.
    destruct (_tor_worker_step world config index (AtCall scrape result) st1)
      as [pc' st'] eqn:Hs.
    apply _tor_worker_step_Step in Hs; [|reflexivity].
    inversion Hs; subst; simpl; rewrite calls_app; simpl.
    + now rewrite (quiet_calls evs).
    + reflexivity.
Qed.

(** C7 as stated fails: no function of the value returned by [_query]
    recovers the cause of a failed transfer, since two different causes
    give the same value. *)
Lemma failure_value_carries_no_cause :
  ~ exists cause_of : option string -> Z * string,
      forall world url socks_port st code msg result st',
        curl_outcome world (List.length (performs (trace st)))
          (mkCurl url "localhost" socks_port PROXYTYPE_SOCKS5_HOSTNAME) =
        failure code msg ->
        _query world url socks_port st = (Ok result, st') ->
        cause_of result = (code, msg).
Proof.
  intros (cause_of & H).
  pose proof (H Examples.world_offline "http://a" 9250%Z init
                28%Z "Connection timed out" None _ eq_refl eq_refl) as H1.
  pose proof (H Examples.world_second_fetch_fails "http://a" 9250%Z
                (record init [Perform (mkCurl "http://a" "localhost" 9250
                                         PROXYTYPE_SOCKS5_HOSTNAME)])
                7%Z "Failed to connect" None _ eq_refl eq_refl) as H2.
  rewrite H1 in H2. discriminate H2.
Qed.

(** ** C8: the queue *)

(** C8, as amended. Taken over all workers, the tasks are handed out in
    the order in which they were queued, each to at most one [get]: at
    the end of [run] the tasks taken, in the order of the [get] calls,
    followed by the tasks still waiting, are the queue as it was filled.
    With at least one thread, handlers that do not raise and options
    that pycurl takes, a normal return of [run] has handed out every
    task, the queue is empty and every worker has had [Queue.Empty] from
    its last [get]. A running worker returns exactly when its [get]
    finds the queue empty. *)
Theorem queue_is_fifo_and_never_blocks world config requests schedule r st' :
  run world config schedule (enqueued requests) = Some (r, st') ->
  dequeued (trace st') ++ scrape_queue st' = scrape_queue (enqueued requests) /\
  (r = Ok tt ->
   (0 < thread_count config)%Z ->
   Forall (fun s => never_raises (scrape_handler s))
          (scrape_queue (enqueued requests)) ->
   Forall (accepted world config (Z.to_nat (thread_count config)))
          (scrape_queue (enqueued requests)) ->
   dequeued (trace st') = scrape_queue (enqueued requests) /\
   scrape_queue st' = [] /\
   (forall i, i < Z.to_nat (thread_count config) ->
              In (Get i None) (trace st'))) /\
  (forall index pc st st1,
     finished pc = false ->
     (_tor_worker_step world config index pc st = (Returned, st1) <->
      pc = AtGet /\ scrape_queue st = [] /\ st1 = record st [Get index None])).
Proof.
  intros Hrun. split; [|split].
  - destruct r as [[]|e].
    + apply run_Ok_fresh in Hrun. cbv zeta in Hrun.
      destruct Hrun as (st1 & pool & st2 & _ & _ & _ & _ & (Hfifo & _) & _ & _ &
                        _ & _ & Ht & Hq & _).
      now rewrite Ht, dequeued_app, dequeued_map_Kill, app_nil_r, Hq.
    + apply run_Raise in Hrun. destruct Hrun as (_ & _ & _ & _ & Hd & Hq).
      destruct (enqueued_spec requests) as (Htr & _).
      rewrite Hd, Htr, Hq. reflexivity.
  - intros -> Hn Hnr Hacc.
    destruct (run_drains_queue _ _ _ _ _ Hn Hnr Hacc Hrun) as (_ & Hq & Hd & Hobs).
    auto.
  - intros index pc st st1 Hf. split.
    + intros Hs. apply _tor_worker_step_Step in Hs; [|exact Hf].
      inversion Hs; subst. auto.
    + intros (-> & Hq & ->). simpl.
      unfold goto, try_except, bind, queue_get_nowait. now rewrite Hq.
Qed.

Lemma queue_is_fifo_and_never_blocks_witness :
  exists st',
    run Examples.world_second_fetch_fails (Examples.config_of 2)
        (Examples.alternating 40)
        (enqueued Examples.three_requests) = Some (Ok tt, st') /\
    dequeued (trace st') ++ scrape_queue st' =
    scrape_queue (enqueued Examples.three_requests) /\
    dequeued (trace st') = scrape_queue (enqueued Examples.three_requests) /\
    scrape_queue st' = [] /\
    In (Get 0 None) (trace st') /\ In (Get 1 None) (trace st').
Proof.
  eexists. split; [vm_compute; reflexivity|].
  edestruct (queue_is_fifo_and_never_blocks Examples.world_second_fetch_fails
               (Examples.config_of 2) Examples.three_requests
               (Examples.alternating 40) (Ok tt)) as (H1 & H2 & _);
    [vm_compute; reflexivity|].
  split; [exact H1|].
  destruct H2 as (Hd & Hq & Hobs).
  - reflexivity.
  - reflexivity.
  - repeat constructor.
  - repeat (constructor; [intros i Hi; reflexivity|]). constructor.
  - split; [exact Hd|]. split; [exact Hq|].
    split; apply Hobs; simpl; lia.
Defined.

(** C8 as stated fails: a task need not be handed to any worker. With
    one thread and a first task whose handler raises, [run] returns
    normally after a single [get]: the second task was taken by no
    worker and is still waiting. *)
Lemma task_is_handed_to_no_worker :
  (0 < thread_count (Examples.config_of 1))%Z /\
  exists st',
    run Examples.world_ok (Examples.config_of 1) (Examples.first_running 12)
        (enqueued Examples.faulty_requests) = Some (Ok tt, st') /\
    dequeued (trace st') = [Examples.boom_scrape] /\
    scrape_queue st' = [mkScrape "http://b" PyNone default_handler] /\
    ~ In (mkScrape "http://b" PyNone default_handler) (dequeued (trace st')).
Proof.
  split; [reflexivity|]. eexists. split; [vm_compute; reflexivity|].
  split; [reflexivity|]. split; [reflexivity|].
  simpl. intros [H|[]]. discriminate H.
Qed.

(** ** C9: the bootstrap lines *)

(** C9, evaluated where the code departs from it. On a line with the
    marker the handler logs what follows the last ['[notice] '], and it
    ignores a line without the marker; but on a line that has the marker
    and no ['[notice] '] the split yields a single piece and taking
    element [1] raises [IndexError]. *)
Theorem init_msg_handler_needs_notice_prefix :
  (forall line st,
     _tor_init_msg_handler line st =
     if Py.contains "Bootstrapped " line then
       match Py.rpartition "[notice] " line with
       | Some (_, suffix) => (Ok tt, record st [Log INFO suffix []])
       | None => (Raise IndexError, st)
       end
     else (Ok tt, st)) /\
  _tor_init_msg_handler "Bootstrapped 5%: Connecting to directory server" init =
    (Raise IndexError, init) /\
  _tor_init_msg_handler
    "May 10 12:00:01.000 [notice] Bootstrapped 5%: Connecting to directory server"
    init =
    (Ok tt, record init
              [Log INFO "Bootstrapped 5%: Connecting to directory server" []]).
Proof.
  split; [|split; reflexivity].
  intros line st. unfold _tor_init_msg_handler, Py.rsplit1, bind, getitem.
  destruct (Py.contains _ _); [|reflexivity].
  destruct (Py.rpartition _ _) as [[before after]|]; reflexivity.
Qed.

(** ** C10: what [add_scrape] puts on the queue *)

(** C10. [add_scrape] appends to the queue one record made of the
    caller's url and context, unchanged, and of the caller's handler, or
    of [_default_handler] when none was given; so the queue of a fresh
    object holds one such record per call, in the order of the calls,
    each with a handler that can be called. Called, the default handler
    writes url, context and result to the debug log and returns. *)
Theorem add_scrape_enqueues_task :
  (forall url context handler st,
     add_scrape url context handler st =
     (Ok tt,
      mkState (scrape_queue st ++
               [mkScrape url context
                  match handler with
                  | Some h => h
                  | None => default_handler
                  end])
              (S (unfinished_tasks st)) (tor_running st) (trace st))) /\
  (forall requests,
     scrape_queue (enqueued requests) =
     map (fun '(url, context, handler) =>
            mkScrape url context
              match handler with
              | Some h => h
              | None => default_handler
              end) requests) /\
  (forall index url context result st,
     call index (mkScrape url context default_handler) result st =
     (Ok tt,
      record st [Call index (mkScrape url context default_handler) result;
                 Log DEBUG "url: %s" [PyStr url];
                 Log DEBUG "context: %s" [context];
                 Log DEBUG "result: %s" [of_result result]])).
Proof.
  split; [|split].
  - intros url context [h|] st; reflexivity.
  - intros requests. unfold enqueued, add_scrapes.
    change (scrape_queue (snd (for_each requests
              (fun '(url, context, handler) => add_scrape url context handler) init)) =
            scrape_queue init ++
            map (fun '(url, context, handler) =>
                   mkScrape url context
                     match handler with Some h => h | None => default_handler end)
                requests).
    generalize init.
    induction requests as [|[[url context] handler] requests IH]; intros st; simpl.
    + now rewrite app_nil_r.
    + unfold bind. unfold add_scrape at 1, queue_put at 1.
      rewrite IH. simpl. rewrite <- app_assoc. simpl.
      now destruct handler.
  - intros index url context result st. unfold call, bind. rewrite emit_eq. simpl.
    unfold _default_handler, bind. rewrite !logger_eq, !record_record. reflexivity.
Qed.

(** * Further properties *)

(** ** Substrings: what [in] and [rsplit] compute *)

Lemma strip_prefix_spec pre : forall s r,
  Py.strip_prefix pre s = Some r <-> s = (pre ++ r)%string.
Proof.
  induction pre as [|a pre IH]; intros s r; simpl.
  - split; [now intros [= ->]|now intros ->].
  - destruct s as [|b s]; [split; discriminate|].
    destruct (Ascii.eqb_spec a b) as [->|Hne].
    + rewrite IH. split; [now intros ->|now intros [= ->]].
    + split; [discriminate|intros [= -> _]; congruence].
Qed.

Lemma contains_unfold sub s :
  Py.contains sub s =
  match Py.strip_prefix sub s with
  | Some _ => true
  | None => match s with
            | EmptyString => false
            | String _ s' => Py.contains sub s'
            end
  end.
Proof. destruct s; reflexivity. Qed.

Lemma contains_spec sub s :
  Py.contains sub s = true <-> exists a b, s = (a ++ sub ++ b)%string.
Proof.
  split.
  - induction s as [|c s IH]; simpl.
    + destruct (Py.strip_prefix sub "") as [r|] eqn:E; [|discriminate].
      intros _. apply strip_prefix_spec in E. now exists "", r.
    + destruct (Py.strip_prefix sub (String c s)) as [r|] eqn:E.
      * intros _. apply strip_prefix_spec in E. now exists "", r.
      * intros H. destruct (IH H) as (a & b & ->). now exists (String c a), b.
  - intros (a & b & ->). induction a as [|c a IH]; simpl.
    + assert (E : Py.strip_prefix sub (sub ++ b) = Some b)
        by now apply strip_prefix_spec.
      now rewrite contains_unfold, E.
    + destruct (Py.strip_prefix sub (String c (a ++ sub ++ b))); [reflexivity|].
      exact IH.
Qed.

Lemma rpartition_None sep s :
  sep <> "" ->
  Py.rpartition sep s = None -> forall a b, s <> (a ++ sep ++ b)%string.
Proof.
  intros Hsep. induction s as [|c s IH]; simpl; intros H a b E.
  - destruct a; [|discriminate]. destruct sep; [congruence|discriminate].
  - destruct (Py.rpartition sep s) as [[? ?]|]; [discriminate|].
    destruct (Py.strip_prefix sep (String c s)) as [r|] eqn:Es; [discriminate|].
    destruct a as [|c' a]; simpl in E.
    + apply strip_prefix_spec in E. congruence.
    + injection E as _ E. now apply (IH eq_refl a b).
Qed.

Lemma rpartition_Some sep s : forall before after,
  sep <> "" ->
  Py.rpartition sep s = Some (before, after) ->
  s = (before ++ sep ++ after)%string /\
  forall a b, s = (a ++ sep ++ b)%string ->
              String.length a <= String.length before.
Proof.
  induction s as [|c s IH]; simpl; intros before after Hsep H; [discriminate|].
  destruct (Py.rpartition sep s) as [[a0 b0]|] eqn:Er.
  - injection H as <- <-. destruct (IH a0 b0 Hsep eq_refl) as (-> & Hmax).
    split; [reflexivity|]. intros a b E. destruct a as [|c' a]; simpl; [lia|].
    simpl in E. injection E as _ E. apply Hmax in E. lia.
  - destruct (Py.strip_prefix sep (String c s)) as [r|] eqn:Es; [|discriminate].
    injection H as <- <-. apply strip_prefix_spec in Es. split; [exact Es|].
    intros a b E. destruct a as [|c' a]; simpl; [lia|].
    simpl in E. injection E as _ E.
    now apply (rpartition_None sep s Hsep Er) in E.
Qed.

Lemma string_length_app (a b : string) :
  String.length (a ++ b)%string = String.length a + String.length b.
Proof. induction a; simpl; auto. Qed.

Lemma string_app_assoc (a b c : string) :
  ((a ++ b) ++ c)%string = (a ++ b ++ c)%string.
Proof. induction a; simpl; congruence. Qed.

(** X1. [_tor_init_msg_handler] in terms of the line's substrings. A
    line without ['Bootstrapped '] is ignored. A line with it and with
    ['[notice] '] is split at the last ['[notice] '] and what follows,
    which holds no further ['[notice] '], is logged at info level. A line
    with the marker and without ['[notice] '] raises [IndexError], and
    nothing else ever does; the state is otherwise untouched. *)
Theorem init_msg_handler_by_substrings line st :
  match _tor_init_msg_handler line st with
  | (Ok _, st') =>
      (st' = st /\ forall a b, line <> (a ++ "Bootstrapped " ++ b)%string) \/
      (exists before suffix,
          line = (before ++ "[notice] " ++ suffix)%string /\
          (forall a b, suffix <> (a ++ "[notice] " ++ b)%string) /\
          (exists a b, line = (a ++ "Bootstrapped " ++ b)%string) /\
          st' = record st [Log INFO suffix []])
  | (Raise e, st') =>
      e = IndexError /\ st' = st /\
      (exists a b, line = (a ++ "Bootstrapped " ++ b)%string) /\
      forall a b, line <> (a ++ "[notice] " ++ b)%string
  end.
Proof.
  assert (Hsep : "[notice] " <> "") by discriminate.
  unfold _tor_init_msg_handler, Py.rsplit1, bind, getitem.
  destruct (Py.contains "Bootstrapped " line) eqn:Hc.
  - apply contains_spec in Hc.
    destruct (Py.rpartition "[notice] " line) as [[before suffix]|] eqn:Er; simpl.
    + right. exists before, suffix.
      destruct (rpartition_Some _ _ _ _ Hsep Er) as (Hline & Hmax).
      split; [exact Hline|]. split; [|split; [exact Hc|reflexivity]].
      intros a b ->.
      specialize (Hmax (before ++ "[notice] " ++ a)%string b).
      rewrite Hline, !string_app_assoc in Hmax. specialize (Hmax eq_refl).
      rewrite !string_length_app in Hmax. simpl in Hmax. lia.
    + split; [reflexivity|]. split; [reflexivity|]. split; [exact Hc|].
      exact (rpartition_None "[notice] " line Hsep Er).
  - left. split; [reflexivity|]. intros a b E.
    assert (Py.contains "Bootstrapped " line = true)
      by (apply contains_spec; eauto).
    congruence.
Qed.

(** ** Edge values of the configuration *)

(** X2. With a [thread_count] of zero or less, [range] is empty: [run]
    launches nothing, starts no thread and returns at once, under any
    schedule, leaving the object as it was, the queued tasks unhandled. *)
Theorem run_without_threads world config schedule st :
  (thread_count config <= 0)%Z ->
  run world config schedule st = Some (Ok tt, st).
Proof.
  intros Hn. unfold run, range.
  replace (Z.to_nat (thread_count config)) with 0 by lia. simpl.
  destruct schedule; reflexivity.
Qed.

Lemma run_without_threads_witness :
  run Examples.world_ok (Examples.config_of 0) []
      (enqueued Examples.three_requests) =
  Some (Ok tt, enqueued Examples.three_requests).
Proof.
  apply (run_without_threads Examples.world_ok (Examples.config_of 0) []
           (enqueued Examples.three_requests)).
  discriminate.
Defined.

(** X3. The socks ports of different circuits differ, and so do their
    control ports. The socks port of one circuit equals the control port
    of another exactly when the offsets meet at those indices, which the
    code does not check; when the two offsets are at least as far apart
    as there are circuits, all the ports of the circuits are distinct. *)
Theorem circuit_ports_collide_only_across_offsets config n :
  (forall i j,
     (SocksPort (tor_config config i) = SocksPort (tor_config config j) <-> i = j) /\
     (ControlPort (tor_config config i) = ControlPort (tor_config config j)
        <-> i = j) /\
     (SocksPort (tor_config config i) = ControlPort (tor_config config j) <->
      (socks_port_offset config + Z.of_nat i =
       control_port_offset config + Z.of_nat j)%Z)) /\
  ((Z.of_nat n <= Z.abs (socks_port_offset config - control_port_offset config))%Z ->
   NoDup (map (fun i => SocksPort (tor_config config i)) (seq 0 n) ++
          map (fun i => ControlPort (tor_config config i)) (seq 0 n))).
Proof.
  assert (Hall : forall i j,
     (SocksPort (tor_config config i) = SocksPort (tor_config config j) <-> i = j) /\
     (ControlPort (tor_config config i) = ControlPort (tor_config config j)
        <-> i = j) /\
     (SocksPort (tor_config config i) = ControlPort (tor_config config j) <->
      (socks_port_offset config + Z.of_nat i =
       control_port_offset config + Z.of_nat j)%Z)).
  { intros i j. simpl. split; [|split]; split; intros H.
    - apply str_inj in H. lia.
    - now subst.
    - apply str_inj in H. lia.
    - now subst.
    - now apply str_inj in H.
    - now rewrite H. }
  split; [exact Hall|]. intros Hfar. apply NoDup_app.
  - apply Finite.Injective_map_NoDup; [|apply seq_NoDup].
    intros i j H. now apply (proj1 (Hall i j)).
  - apply Finite.Injective_map_NoDup; [|apply seq_NoDup].
    intros i j H. now apply (proj1 (proj2 (Hall i j))).
  - intros p Hs Hc. apply in_map_iff in Hs. destruct Hs as (i & <- & Hi).
    apply in_map_iff in Hc. destruct Hc as (j & Hji & Hj).
    symmetry in Hji. apply (proj2 (proj2 (Hall i j))) in Hji.
    apply in_seq in Hi. apply in_seq in Hj. lia.
Qed.

Lemma circuit_ports_collide_only_across_offsets_witness :
  NoDup (map (fun i => SocksPort (tor_config (Examples.config_of 3) i)) (seq 0 3) ++
         map (fun i => ControlPort (tor_config (Examples.config_of 3) i)) (seq 0 3)).
Proof.
  apply (proj2 (circuit_ports_collide_only_across_offsets (Examples.config_of 3) 3)).
  vm_compute. discriminate.
Defined.

(** ** The phases of a run *)

Lemma run_threads_trace world config schedule pool st pool' st' :
  run_threads world config schedule pool st = Some (pool', st') ->
  exists evs, trace st' = trace st ++ evs.
Proof.
  intros Hrun.
  apply (run_threads_invariant world config
           (fun _ s => exists evs, trace s = trace st ++ evs)) in Hrun.
  - tauto.
  - intros p s i pc pc' s' (evs & He) _ Hf Hs.
    apply _tor_worker_step_Step in Hs; [|exact Hf].
    destruct (Step_trace _ _ _ _ _ _ _ Hs) as (evs' & ->).
    exists (evs ++ evs'). now rewrite He, app_assoc.
  - exists []. now rewrite app_nil_r.
Qed.

(** A normal return of [run] on a fresh object, by its three phases:
    the events [evs1] of the start-up, the events [evs2] of the threads
    and the kills. *)
Lemma run_Ok_phases world config requests schedule st' :
  run world config schedule (enqueued requests) = Some (Ok tt, st') ->
  exists st1 pool st2 evs2,
    start_tor_processes world config (range (thread_count config)) []
      (enqueued requests) =
      (Ok (seq 0 (Z.to_nat (thread_count config))), st1) /\
    scrape_queue st1 = scrape_queue (enqueued requests) /\
    unfinished_tasks st1 = List.length (scrape_queue (enqueued requests)) /\
    launches (trace st1) =
      map (fun i => (tor_cmd config, tor_config config i))
          (seq 0 (Z.to_nat (thread_count config))) /\
    kills (trace st1) = [] /\ handled (trace st1) = [] /\
    dequeued (trace st1) = [] /\
    run_threads world config schedule
      (map (fun _ => AtStart) (seq 0 (Z.to_nat (thread_count config)))) st1 =
      Some (pool, st2) /\
    trace st2 = trace st1 ++ evs2 /\
    launches evs2 = [] /\ kills evs2 = [] /\
    trace st' = trace st2 ++ map Kill (seq 0 (Z.to_nat (thread_count config))) /\
    scrape_queue st' = scrape_queue st2 /\
    unfinished_tasks st' = unfinished_tasks st2.
Proof.
  intros H. apply run_cases in H.
  destruct H as [(e & [=] & _)|(procs & st1 & pool & st2 & _ & Hstart & Hrun & Hkill)].
  destruct (enqueued_spec requests) as (Htr & Hrunning & Hlen & Hunf).
  pose proof Hstart as Hspec. apply start_tor_processes_spec in Hspec.
  destruct Hspec as (k & pids & evs & _ & Hq & Hu & Hr & Ht & Hl & Hk & Hh & Hd &
                     -> & Hp & ->).
  rewrite Htr in *. simpl in *. subst procs.
  unfold range in *. rewrite length_seq in *.
  rewrite firstn_all2 in Hl by (rewrite length_seq; lia).
  destruct (run_threads_frame _ _ _ _ _ _ _ Hrun) as (_ & Hk2 & Hl2).
  destruct (run_threads_trace _ _ _ _ _ _ _ Hrun) as (evs2 & Ht2).
  destruct (kill_all_spec (seq 0 (Z.to_nat (thread_count config))) st2)
    as (st3 & Hk3 & Hq3 & Hu3 & Ht3 & _).
  rewrite Hkill in Hk3. injection Hk3 as <-.
  exists st1, pool, st2, evs2. rewrite Ht.
  rewrite Ht2, kills_app, Ht in Hk2. rewrite Ht2, launches_app, Ht in Hl2.
  split; [exact Hstart|]. split; [exact Hq|]. split; [now rewrite Hu, Hunf, Hlen|].
  split; [exact Hl|]. split; [exact Hk|]. split; [exact Hh|]. split; [exact Hd|].
  split; [exact Hrun|]. split; [now rewrite Ht2, Ht|].
  split; [now apply app_inv_head with (l := launches evs); rewrite app_nil_r|].
  split; [now apply app_inv_head with (l := kills evs); rewrite app_nil_r|].
  auto.
Qed.

(** X4. A normal run on a fresh object goes through three phases that do
    not overlap: first all the processes are launched, in the order of
    their indices, and nothing is taken from the queue; then the workers
    take and handle tasks, and no process is launched or killed; only
    then every process is killed, in the order of the launches. So no
    task is fetched before every circuit is up or after one is down. *)
Theorem run_has_three_phases world config requests schedule st' :
  run world config schedule (enqueued requests) = Some (Ok tt, st') ->
  exists startup work,
    trace st' =
      startup ++ work ++ map Kill (seq 0 (Z.to_nat (thread_count config))) /\
    launches startup =
      map (fun i => (tor_cmd config, tor_config config i))
          (seq 0 (Z.to_nat (thread_count config))) /\
    kills startup = [] /\ dequeued startup = [] /\ handled startup = [] /\
    launches work = [] /\ kills work = [] /\
    dequeued work = dequeued (trace st') /\
    handled work = handled (trace st').
Proof.
  intros Hrun. apply run_Ok_phases in Hrun.
  destruct Hrun as (st1 & pool & st2 & evs2 & _ & _ & _ & Hl & Hk & Hh & Hd & _ &
                    Ht2 & Hl2 & Hk2 & Ht & _).
  exists (trace st1), evs2.
  rewrite Ht, Ht2, <- app_assoc, !dequeued_app, !handled_app, Hd, Hh,
    dequeued_map_Kill, handled_map_Kill, !app_nil_r.
  repeat split; auto.
Qed.

Lemma run_has_three_phases_witness :
  exists st',
    run Examples.world_ok (Examples.config_of 2) (Examples.alternating 40)
        (enqueued Examples.three_requests) = Some (Ok tt, st') /\
    exists startup work,
      trace st' = startup ++ work ++ [Kill 0; Kill 1] /\
      List.length (launches startup) = 2 /\ launches work = [] /\
      kills startup = [] /\ kills work = [] /\
      List.length (handled work) = 3.
Proof.
  eexists. split; [vm_compute; reflexivity|].
  edestruct (run_has_three_phases Examples.world_ok (Examples.config_of 2)
               Examples.three_requests (Examples.alternating 40))
    as (startup & work & Ht & Hl & Hk & _ & _ & Hl2 & Hk2 & _ & Hh);
    [vm_compute; reflexivity|].
  exists startup, work. split; [exact Ht|].
  split; [now rewrite Hl|]. split; [exact Hl2|]. split; [exact Hk|].
  split; [exact Hk2|]. now rewrite Hh.
Defined.

(** ** Tasks and handlers, whatever the handlers do *)

Lemma calls_map_Kill pids : calls (map Kill pids) = [].
Proof. induction pids; simpl; auto. Qed.

Lemma count_died_lt pool :
  count_died pool < List.length pool -> exists pc, In pc pool /\ died pc = false.
Proof.
  unfold count_died. induction pool as [|pc pool IH]; simpl; [lia|].
  destruct (died pc) eqn:E; simpl; intros H.
  - destruct IH as (pc' & Hin & Hd); [lia|]. eauto.
  - eauto.
Qed.

Lemma count_died_le pool : count_died pool <= List.length pool.
Proof. apply filter_length_le. Qed.

Lemma owes_finished pool :
  Forall (fun pc => finished pc = true) pool -> list_sum (map owes pool) = 0.
Proof.
  induction 1 as [|pc pool Hpc _ IH]; simpl; [reflexivity|].
  rewrite IH. destruct pc; simpl in *; try discriminate; reflexivity.
Qed.

(** A normal return of [run] on a fresh object, with what the threads
    kept true, told of the final state: the workers have all finished;
    the tasks taken and the tasks waiting are the queue as it was
    filled; each task taken was handled or [dropped]; the count of
    unfinished tasks and the workers that died are accounted for; and if
    a worker returned, the queue is empty. *)
Lemma run_Ok_accounts world config requests schedule st' :
  run world config schedule (enqueued requests) = Some (Ok tt, st') ->
  exists pool dropped,
    Forall (fun pc => finished pc = true) pool /\
    List.length pool = Z.to_nat (thread_count config) /\
    dequeued (trace st') ++ scrape_queue st' =
      scrape_queue (enqueued requests) /\
    Permutation (handled (trace st') ++ dropped) (dequeued (trace st')) /\
    Forall (rejected world config (Z.to_nat (thread_count config))) dropped /\
    unfinished_tasks st' =
      List.length (scrape_queue st') + List.length (faults (trace st')) +
      List.length dropped /\
    count_died pool =
      List.length (faults (trace st')) + List.length dropped /\
    (In Returned pool -> scrape_queue st' = []).
Proof.
  intros Hrun. apply run_Ok_phases in Hrun.
  destruct Hrun as (st1 & pool & st2 & evs2 & _ & Hq1 & Hu1 & _ & _ & Hh1 & Hd1 &
                    Hrun & _ & _ & _ & Ht & Hq & Hu).
  set (n := Z.to_nat (thread_count config)) in *.
  assert (Hn : List.length (map (fun _ : nat => AtStart) (seq 0 n)) = n)
    by now rewrite length_map, length_seq.
  assert (HI : Inv world config n (scrape_queue (enqueued requests))
                 (map (fun _ => AtStart) (seq 0 n)) st1).
  { unfold Inv.
    rewrite Hd1, Hq1, Hu1, holding_AtStart, owes_AtStart, count_died_AtStart,
      (handled_nil_faults _ Hh1), Hh1.
    simpl. split; [reflexivity|]. split.
    - exists []. simpl. split; [constructor|]. split; [constructor|]. split; lia.
    - intros Hin. apply in_map_iff in Hin. destruct Hin as (? & [=] & _). }
  destruct (run_threads_Inv _ _ _ _ _ _ _ _ _ Hn HI Hrun)
    as ((Hfifo & (dropped & Hperm & Hrej & Hcount & Hdied) & Hempty) & Hfin).
  rewrite (finished_holding _ Hfin) in Hperm. simpl in Hperm.
  rewrite (owes_finished _ Hfin), Nat.add_0_r in Hcount.
  exists pool, dropped.
  rewrite Ht, handled_app, dequeued_app, faults_app, handled_map_Kill,
    dequeued_map_Kill, (faults_calls_nil _ (calls_map_Kill _)), !app_nil_r,
    Hq, Hu.
  split; [exact Hfin|]. split.
  { apply run_threads_length in Hrun. now rewrite Hrun. }
  auto 10.
Qed.

Lemma finished_not_died_Returned pool pc :
  Forall (fun pc => finished pc = true) pool ->
  In pc pool -> died pc = false -> In Returned pool.
Proof.
  intros Hfin Hin Hd. rewrite Forall_forall in Hfin. specialize (Hfin pc Hin).
  destruct pc; simpl in *; try discriminate. exact Hin.
Qed.

(** X5. Whenever [run] returns normally on a fresh object, with any
    handlers, also ones that raise, and under any schedule: every task
    that was queued has had its handler invoked exactly once, or is
    still on the queue, or was dropped, that is, taken by a worker that
    died setting the options of its fetch. No task is handled twice or
    put back; a task is dropped only if pycurl refuses its options from
    one of the workers, and at most one task per thread is; so when
    pycurl takes the options of every task, each task is handled once or
    still queued. *)
Theorem every_task_is_handled_once_queued_or_dropped
    world config requests schedule st' :
  run world config schedule (enqueued requests) = Some (Ok tt, st') ->
  exists dropped,
    Permutation (handled (trace st') ++ dropped ++ scrape_queue st')
                (scrape_queue (enqueued requests)) /\
    Permutation (handled (trace st') ++ dropped) (dequeued (trace st')) /\
    Forall (rejected world config (Z.to_nat (thread_count config))) dropped /\
    List.length dropped <= Z.to_nat (thread_count config) /\
    (Forall (accepted world config (Z.to_nat (thread_count config)))
            (scrape_queue (enqueued requests)) ->
     dropped = [] /\
     Permutation (handled (trace st') ++ scrape_queue st')
                 (scrape_queue (enqueued requests))).
Proof.
  intros Hrun. apply run_Ok_accounts in Hrun.
  destruct Hrun as (pool & dropped & Hfin & Hlen & Hfifo & Hperm & Hrej & _ &
                    Hdied & _).
  exists dropped.
  assert (Hall : Permutation (handled (trace st') ++ dropped ++ scrape_queue st')
                             (scrape_queue (enqueued requests))).
  { rewrite <- Hfifo, app_assoc. now apply Permutation_app_tail. }
  split; [exact Hall|]. split; [exact Hperm|]. split; [exact Hrej|]. split.
  { pose proof (count_died_le pool). lia. }
  intros Hacc.
  assert (Hd : dropped = []).
  { destruct dropped as [|s dropped]; [reflexivity|exfalso].
    inversion Hrej as [|? ? (i & Hi & Hs) _]; subst.
    rewrite Forall_forall in Hacc. apply Hs, Hacc; [|exact Hi].
    eapply Permutation_in; [exact Hall|].
    apply in_or_app. right. now left. }
  subst dropped. now split.
Qed.

Lemma every_task_is_handled_once_queued_or_dropped_witness :
  exists st',
    run Examples.world_strict (Examples.config_of 2) (Examples.alternating 40)
        (enqueued Examples.nul_requests) = Some (Ok tt, st') /\
    handled (trace st') = [mkScrape "http://b" PyNone default_handler] /\
    scrape_queue st' = [] /\
    exists dropped,
      Permutation (handled (trace st') ++ dropped ++ scrape_queue st')
                  (scrape_queue (enqueued Examples.nul_requests)) /\
      Permutation (handled (trace st') ++ dropped) (dequeued (trace st')) /\
      List.length dropped <= 2.
Proof.
  eexists. split; [vm_compute; reflexivity|]. split; [reflexivity|].
  split; [reflexivity|].
  edestruct (every_task_is_handled_once_queued_or_dropped Examples.world_strict
               (Examples.config_of 2) Examples.nul_requests
               (Examples.alternating 40))
    as (dropped & H1 & H2 & _ & H3 & _);
    [vm_compute; reflexivity|].
  exists dropped. split; [exact H1|]. split; [exact H2|exact H3].
Defined.

(** What a single worker keeps true while it runs: the tasks it has
    handled, followed by the one it holds, are the tasks taken; it drops
    a task only with its last statement. *)
Lemma Step_in_order world config index pc st pc' st' :
  Step world config index pc st pc' st' ->
  handled (trace st) ++ holding pc = dequeued (trace st) ->
  exists dropped,
    handled (trace st') ++ holding pc' ++ dropped = dequeued (trace st') /\
    List.length dropped <= 1 /\
    Forall (fun s => setopt_failure world (worker_curl config index s) <> None)
           dropped /\
    (finished pc' = false -> dropped = []).
Proof.
  intros Hs H. inversion Hs; subst; simpl in *;
    rewrite ?handled_app, ?dequeued_app; simpl;
    rewrite ?(quiet_handled evs), ?(quiet_dequeued evs) by assumption;
    rewrite ?app_nil_r in *.
  6: { exists [scrape]. split; [exact H|]. split; [simpl; lia|].
       split; [|discriminate]. constructor; [congruence|constructor]. }
  all: exists []; rewrite ?app_nil_r; simpl;
    (split; [try assumption; try congruence|]);
    (split; [lia|]); (split; [constructor|reflexivity]).
Qed.

(** X6. With a single thread the handlers are invoked in the order in
    which the tasks were queued: when [run] returns normally, the tasks
    handled, in the order of the calls, followed by the task that was
    dropped, if the worker died setting the options of its fetch, and by
    the tasks still queued, are the queue as it was filled. When pycurl
    takes the options of every task, nothing is dropped. *)
Theorem single_thread_handles_in_order world config requests schedule st' :
  thread_count config = 1%Z ->
  run world config schedule (enqueued requests) = Some (Ok tt, st') ->
  exists dropped,
    handled (trace st') ++ dropped ++ scrape_queue st' =
      scrape_queue (enqueued requests) /\
    List.length dropped <= 1 /\
    Forall (rejected world config 1) dropped /\
    (Forall (accepted world config 1) (scrape_queue (enqueued requests)) ->
     dropped = []).
Proof.
  intros Hone Hrun.
  pose proof (run_Ok_accounts _ _ _ _ _ Hrun)
    as (_ & _ & _ & _ & Hfifo & _).
  apply run_Ok_phases in Hrun.
  destruct Hrun as (st1 & pool & st2 & evs2 & _ & Hq1 & Hu1 & _ & _ & Hh1 & Hd1 &
                    Hrun & _ & _ & _ & Ht & Hq & _).
  rewrite Hone in *. simpl in Hrun.
  rewrite Ht, dequeued_app, dequeued_map_Kill, app_nil_r in Hfifo.
  apply (run_threads_invariant world config
           (fun p s => exists pc dropped, p = [pc] /\
              handled (trace s) ++ holding pc ++ dropped = dequeued (trace s) /\
              List.length dropped <= 1 /\
              Forall (fun t => setopt_failure world (worker_curl config 0 t)
                               <> None) dropped /\
              (finished pc = false -> dropped = [])))
    in Hrun.
  - destruct Hrun as ((pc & dropped & -> & Hord & Hlen & Hrej & _) & Hfin).
    inversion Hfin as [|? ? Hpc _]; subst.
    assert (Hh : holding pc = []) by (destruct pc; simpl in *; congruence).
    rewrite Hh in Hord. simpl in Hord.
    exists dropped.
    rewrite Ht, handled_app, handled_map_Kill, app_nil_r, Hq.
    rewrite Hq in Hfifo.
    split; [now rewrite app_assoc, Hord|]. split; [exact Hlen|].
    assert (Hrej' : Forall (rejected world config 1) dropped).
    { eapply Forall_impl; [|exact Hrej]. intros t Hs. exists 0. split; [lia|exact Hs]. }
    split; [exact Hrej'|].
    intros Hacc. destruct dropped as [|t dropped]; [reflexivity|exfalso].
    inversion Hrej as [|? ? Hs _]; subst.
    rewrite Forall_forall in Hacc. apply Hs, Hacc; [|lia].
    rewrite <- Hfifo, <- Hord. rewrite !in_app_iff. left. right. now left.
  - intros p s i pc pc' s' (pc0 & dropped & -> & Hord & _ & _ & Hd) Hnth Hf Hs.
    destruct i as [|i]; simpl in Hnth; [|destruct i; discriminate].
    injection Hnth as ->. simpl. exists pc'.
    apply _tor_worker_step_Step in Hs; [|exact Hf].
    rewrite (Hd Hf), app_nil_r in Hord.
    destruct (Step_in_order _ _ _ _ _ _ _ Hs Hord) as (dropped' & H1 & H2 & H3 & H4).
    exists dropped'. auto.
  - exists AtStart, []. split; [reflexivity|]. simpl. rewrite Hh1, Hd1.
    split; [reflexivity|]. split; [lia|]. split; [constructor|reflexivity].
Qed.

Lemma single_thread_handles_in_order_witness :
  exists st',
    run Examples.world_second_fetch_fails (Examples.config_of 1)
        (Examples.first_running 30) (enqueued Examples.three_requests) =
    Some (Ok tt, st') /\
    handled (trace st') = scrape_queue (enqueued Examples.three_requests) /\
    exists dropped,
      handled (trace st') ++ dropped ++ scrape_queue st' =
        scrape_queue (enqueued Examples.three_requests) /\
      dropped = [].
Proof.
  eexists. split; [vm_compute; reflexivity|]. split; [reflexivity|].
  edestruct (single_thread_handles_in_order Examples.world_second_fetch_fails
               (Examples.config_of 1) Examples.three_requests
               (Examples.first_running 30))
    as (dropped & H1 & _ & _ & H2);
    [reflexivity|vm_compute; reflexivity|].
  exists dropped. split; [exact H1|]. apply H2.
  repeat (constructor; [intros i Hi; reflexivity|]). constructor.
Defined.

(** ** Workers that die, counted *)

(** X7. When [run] returns normally on a fresh object, the queue's count
    of unfinished tasks is the number of tasks still queued, plus the
    number of handler calls that raised, plus the number of tasks taken
    and never handed to a handler, their worker having died setting the
    options of the fetch: [task_done] is called once for each task whose
    handler returned, and never without a task to account for. When
    there is at least one thread, no handler call raised and every task
    taken was handed to its handler, the count is back at zero. *)
Theorem unfinished_tasks_are_the_queued_and_the_lost
    world config requests schedule st' :
  run world config schedule (enqueued requests) = Some (Ok tt, st') ->
  unfinished_tasks st' + List.length (handled (trace st')) =
    List.length (scrape_queue st') + List.length (faults (trace st')) +
    List.length (dequeued (trace st')) /\
  List.length (handled (trace st')) <= List.length (dequeued (trace st')) /\
  ((0 < thread_count config)%Z -> faults (trace st') = [] ->
   List.length (handled (trace st')) = List.length (dequeued (trace st')) ->
   unfinished_tasks st' = 0).
Proof.
  intros Hrun. apply run_Ok_accounts in Hrun.
  destruct Hrun as (pool & dropped & Hfin & Hlen & _ & Hperm & _ & Hu & Hdied &
                    Hempty).
  apply Permutation_length in Hperm. rewrite length_app in Hperm.
  split; [lia|]. split; [lia|].
  intros Hn Hnone Hall. rewrite Hnone in *. simpl in *.
  destruct (count_died_lt pool) as (pc & Hin & Hd); [lia|].
  rewrite Hempty in Hu by (eapply finished_not_died_Returned; eauto).
  simpl in Hu. lia.
Qed.

Lemma unfinished_tasks_are_the_queued_and_the_lost_witness :
  exists st',
    run Examples.world_strict (Examples.config_of 1) (Examples.first_running 12)
        (enqueued Examples.nul_requests) = Some (Ok tt, st') /\
    unfinished_tasks st' = 2 /\
    List.length (scrape_queue st') = 1 /\
    List.length (faults (trace st')) = 0 /\
    List.length (dequeued (trace st')) = 1 /\
    List.length (handled (trace st')) = 0.
Proof.
  eexists. split; [vm_compute; reflexivity|].
  edestruct (unfinished_tasks_are_the_queued_and_the_lost Examples.world_strict
               (Examples.config_of 1) Examples.nul_requests
               (Examples.first_running 12)) as (H & _);
    [vm_compute; reflexivity|].
  split; [|repeat split].
  change (List.length (handled (trace _))) with 0 in H.
  rewrite Nat.add_0_r in H. rewrite H. reflexivity.
Defined.

(** X8. The death of workers is survived as long as a worker is left. A
    worker dies with each handler call that raises and with each task
    taken and never handed to a handler. When [run] returns normally and
    these are fewer than the threads, the queue is empty and every task
    that was queued was taken; each task has then had its handler
    invoked exactly once, but for the tasks whose fetch pycurl refused. *)
Theorem fewer_deaths_than_threads_drain_the_queue
    world config requests schedule st' :
  run world config schedule (enqueued requests) = Some (Ok tt, st') ->
  List.length (faults (trace st')) +
    (List.length (dequeued (trace st')) - List.length (handled (trace st')))
    < Z.to_nat (thread_count config) ->
  scrape_queue st' = [] /\
  dequeued (trace st') = scrape_queue (enqueued requests) /\
  (exists dropped,
      Permutation (handled (trace st') ++ dropped)
                  (scrape_queue (enqueued requests)) /\
      Forall (rejected world config (Z.to_nat (thread_count config))) dropped /\
      List.length dropped =
        List.length (dequeued (trace st')) - List.length (handled (trace st'))) /\
  (List.length (handled (trace st')) = List.length (dequeued (trace st')) ->
   Permutation (handled (trace st')) (scrape_queue (enqueued requests))).
Proof.
  intros Hrun Hlt. apply run_Ok_accounts in Hrun.
  destruct Hrun as (pool & dropped & Hfin & Hlen & Hfifo & Hperm & Hrej & _ &
                    Hdied & Hempty).
  pose proof (Permutation_length Hperm) as Hl. rewrite length_app in Hl.
  destruct (count_died_lt pool) as (pc & Hin & Hd); [lia|].
  assert (Hq : scrape_queue st' = [])
    by (apply Hempty; eapply finished_not_died_Returned; eauto).
  rewrite Hq, app_nil_r in Hfifo. rewrite Hfifo in Hperm.
  split; [exact Hq|]. split; [exact Hfifo|]. split.
  - exists dropped. split; [exact Hperm|]. split; [exact Hrej|]. lia.
  - intros Hall. destruct dropped; [|simpl in Hl; lia].
    now rewrite app_nil_r in Hperm.
Qed.

Lemma fewer_deaths_than_threads_drain_the_queue_witness :
  exists st',
    run Examples.world_ok (Examples.config_of 2) (Examples.alternating 40)
        (enqueued Examples.faulty_requests) = Some (Ok tt, st') /\
    List.length (faults (trace st')) = 1 /\
    scrape_queue st' = [] /\
    dequeued (trace st') = scrape_queue (enqueued Examples.faulty_requests) /\
    Permutation (handled (trace st'))
                (scrape_queue (enqueued Examples.faulty_requests)).
Proof.
  eexists. split; [vm_compute; reflexivity|]. split; [reflexivity|].
  edestruct (fewer_deaths_than_threads_drain_the_queue Examples.world_ok
               (Examples.config_of 2) Examples.faulty_requests
               (Examples.alternating 40)) as (H1 & H2 & _ & H3);
    [vm_compute; reflexivity|vm_compute; lia|].
  split; [exact H1|]. split; [exact H2|]. apply H3. reflexivity.
Defined.

(** ** The transfers of a run *)

Lemma performs_app a b : performs (a ++ b) = performs a ++ performs b.
Proof. apply flat_map_app. Qed.

Lemma performs_map_Kill pids : performs (map Kill pids) = [].
Proof. induction pids; simpl; auto. Qed.

Lemma init_msg_handler_performs line st r st' :
  _tor_init_msg_handler line st = (r, st') ->
  performs (trace st') = performs (trace st).
Proof.
  unfold _tor_init_msg_handler, bind, getitem.
  destruct (Py.contains _ _); [|now intros [= <- <-]].
  destruct (nth_error _ _); simpl; intros [= <- <-]; simpl; [|reflexivity].
  rewrite performs_app. simpl. now rewrite app_nil_r.
Qed.

Lemma for_each_lines_performs lines : forall st r st',
  for_each lines _tor_init_msg_handler st = (r, st') ->
  performs (trace st') = performs (trace st).
Proof.
  induction lines as [|line lines IH]; simpl; intros st r st' H.
  - now injection H as <- <-.
  - unfold bind in H.
    destruct (_tor_init_msg_handler line st) as [[[]|e] st1] eqn:E.
    + apply IH in H. rewrite H. eapply init_msg_handler_performs; eauto.
    + injection H as <- <-. eapply init_msg_handler_performs; eauto.
Qed.

Lemma launch_performs world cmd cfg st r st' :
  launch_tor_with_config world cmd cfg _tor_init_msg_handler st = (r, st') ->
  performs (trace st') = performs (trace st).
Proof.
  unfold launch_tor_with_config, bind. rewrite emit_eq.
  destruct (for_each _ _ _) as [[[]|e] st1] eqn:E; apply for_each_lines_performs in E;
    simpl in E; rewrite performs_app, app_nil_r in E.
  - destruct (tor_failure world cfg); intros [= <- <-]; simpl; exact E.
  - intros [= <- <-]. exact E.
Qed.

(** The probe of circuit [index] makes no transfer or one, through that
    circuit; when it returns normally it has made the transfer the
    config asks for. *)
Lemma log_public_ip_performs world config index st r st' :
  log_public_ip world config index st = (r, st') ->
  exists W,
    performs (trace st') = performs (trace st) ++ W /\
    Forall (fun c => exists u, c = probe_curl config u index) W /\
    (r = Ok tt -> W = probes config [index]).
Proof.
  pose proof (log_public_ip_cases world config index st) as H. unfold probes.
  destruct (public_ip_url config) as [u|].
  - destruct (String.eqb u "").
    + rewrite H. intros [= <- <-]. exists []. rewrite app_nil_r. auto.
    + cbv zeta in H. destruct (setopt_failure world _).
      { rewrite H. intros [= <- <-]. exists []. rewrite app_nil_r.
        split; [reflexivity|]. split; [constructor|discriminate]. }
      destruct (curl_outcome world _ _); rewrite H;
        intros [= <- <-]; exists [probe_curl config u index]; simpl;
        rewrite performs_app; simpl; (split; [reflexivity|]);
        (split; [repeat constructor; now exists u|]); [reflexivity|discriminate].
  - rewrite H. intros [= <- <-]. exists []. rewrite app_nil_r. auto.
Qed.

Lemma probes_cons config index indices :
  probes config (index :: indices) = probes config [index] ++ probes config indices.
Proof.
  unfold probes. destruct (public_ip_url config) as [u|]; [|reflexivity].
  now destruct (String.eqb u "").
Qed.

Lemma start_tor_processes_performs world config indices :
  forall tor_processes st r st',
    start_tor_processes world config indices tor_processes st = (r, st') ->
    exists W,
      performs (trace st') = performs (trace st) ++ W /\
      Forall (fun c => exists u i, In i indices /\ c = probe_curl config u i) W /\
      (forall ps, r = Ok ps -> W = probes config indices).
Proof.
  induction indices as [|index indices IH]; intros procs st r st' H; simpl in H.
  - injection H as <- <-. exists []. rewrite app_nil_r. split; [reflexivity|].
    split; [constructor|]. intros ps _. unfold probes.
    destruct (public_ip_url config) as [u|]; [|reflexivity].
    now destruct (String.eqb u "").
  - unfold bind at 1 in H.
    destruct (launch_tor_with_config _ _ _ _ st) as [[p|e] st1] eqn:El.
    + apply launch_performs in El. unfold bind at 1 in H.
      destruct (log_public_ip world config index st1) as [[[]|e] st2] eqn:Ep;
        apply log_public_ip_performs in Ep; destruct Ep as (W1 & HW1 & HF1 & HO1).
      * apply IH in H. destruct H as (W2 & HW2 & HF2 & HO2).
        exists (W1 ++ W2). rewrite HW2, HW1, El, app_assoc.
        split; [reflexivity|]. split.
        -- apply Forall_app. split.
           ++ eapply Forall_impl; [|exact HF1]. simpl.
              intros c (u & ->). exists u, index. auto.
           ++ eapply Forall_impl; [|exact HF2]. simpl.
              intros c (u & i & Hi & ->). exists u, i. auto.
        -- intros ps ->. rewrite probes_cons, (HO1 eq_refl), (HO2 _ eq_refl).
           reflexivity.
      * injection H as <- <-. exists W1. rewrite HW1, El.
        split; [reflexivity|]. split; [|discriminate].
        eapply Forall_impl; [|exact HF1]. simpl.
        intros c (u & ->). exists u, index. auto.
    + injection H as <- <-. apply launch_performs in El. exists [].
      rewrite app_nil_r. split; [exact El|]. split; [constructor|discriminate].
Qed.

(** The one statement of a worker that makes a transfer is the fetch,
    and it makes one, for the task's URL, through the worker's circuit,
    unless setting the options ends the worker. *)
Lemma worker_step_performs world config index pc st pc' st' :
  finished pc = false ->
  _tor_worker_step world config index pc st = (pc', st') ->
  performs (trace st') =
  performs (trace st) ++
  match pc, pc' with
  | AtQuery scrape, AtCall _ _ => [worker_curl config index scrape]
  | _, _ => []
  end.
Proof.
  intros Hf H. destruct pc; simpl in Hf; try discriminate; simpl in H.
  - unfold goto in H. rewrite logger_eq in H. injection H as <- <-. simpl.
    now rewrite performs_app.
  - unfold goto, try_except, bind, queue_get_nowait in H.
    destruct (scrape_queue st); simpl in H; injection H as <- <-; simpl;
      now rewrite performs_app.
  - unfold goto in H. rewrite logger_eq in H. injection H as <- <-. simpl.
    now rewrite performs_app.
  - unfold goto in H.
    pose proof (_query_cases world (scrape_url scrape)
                  (socks_port_offset config + Z.of_nat index) st) as Hq.
    cbv zeta in Hq.
    destruct (setopt_failure world _).
    { rewrite Hq in H. injection H as <- <-. now rewrite app_nil_r. }
    destruct (curl_outcome world _ _); rewrite Hq in H; injection H as <- <-;
      simpl; rewrite performs_app; reflexivity.
  - unfold goto, call, bind in H. rewrite emit_eq in H.
    destruct (scrape_handler scrape).
    + unfold _default_handler, bind in H. rewrite !logger_eq, !record_record in H.
      injection H as <- <-. simpl. now rewrite performs_app.
    + destruct (f _ _ _); simpl in H; injection H as <- <-; simpl;
        now rewrite performs_app.
  - unfold goto, task_done in H.
    destruct (unfinished_tasks st); injection H as <- <-; simpl;
      [now rewrite app_nil_r|now rewrite performs_app].
Qed.

Lemma fetched_split pre pc post :
  map scrape_url (flat_map fetched (pre ++ pc :: post)) =
  map scrape_url (flat_map fetched pre) ++ map scrape_url (fetched pc) ++
  map scrape_url (flat_map fetched post).
Proof. now rewrite flat_map_app, map_app; simpl; rewrite map_app. Qed.

Lemma fetched_AtStart {A} (l : list A) :
  flat_map fetched (map (fun _ => AtStart) l) = [].
Proof. induction l; simpl; auto. Qed.

Lemma fetched_finished pool :
  Forall (fun pc => finished pc = true) pool -> flat_map fetched pool = [].
Proof.
  induction 1 as [|pc pool Hpc _ IH]; simpl; [reflexivity|].
  rewrite IH. destruct pc; simpl in *; try discriminate; reflexivity.
Qed.

Lemma Permutation_add {A} (U h a b : list A) x :
  Permutation U (h ++ a ++ b) -> Permutation (U ++ [x]) (h ++ a ++ x :: b).
Proof.
  intros H. transitivity (x :: U); [apply Permutation_app_comm|].
  rewrite app_assoc. apply Permutation_cons_app. now rewrite <- app_assoc.
Qed.

Lemma Permutation_move {A} (U h a b : list A) x :
  Permutation U (h ++ a ++ x :: b) -> Permutation U ((h ++ [x]) ++ a ++ b).
Proof.
  intros H. rewrite H, <- !app_assoc. apply Permutation_app_head.
  simpl. symmetry. apply (Permutation_cons_app _ _ _ (Permutation_refl _)).
Qed.

Lemma run_threads_finished world config schedule pool st pool' st' :
  run_threads world config schedule pool st = Some (pool', st') ->
  Forall (fun pc => finished pc = true) pool'.
Proof.
  intros Hrun.
  apply (run_threads_invariant world config (fun _ _ => True)) in Hrun; tauto.
Qed.

(** What the threads keep true of their transfers [W], the ones made
    since they started: each went through the circuit of the worker that
    made it, and their URLs are those of the tasks handled or fetched and
    about to be handled. *)
Lemma run_threads_performs world config schedule pool st pool' st' :
  handled (trace st) = [] -> flat_map fetched pool = [] ->
  run_threads world config schedule pool st = Some (pool', st') ->
  exists W,
    performs (trace st') = performs (trace st) ++ W /\
    Forall (through_circuit config (List.length pool)) W /\
    Permutation (map URL W)
      (map scrape_url (handled (trace st')) ++
       map scrape_url (flat_map fetched pool')).
Proof.
  intros Hh0 Hf0 Hrun.
  apply (run_threads_invariant world config
           (fun p s =>
              List.length p = List.length pool /\
              exists W,
                performs (trace s) = performs (trace st) ++ W /\
                Forall (through_circuit config (List.length pool)) W /\
                Permutation (map URL W)
                  (map scrape_url (handled (trace s)) ++
                   map scrape_url (flat_map fetched p)))) in Hrun.
  - tauto.
  - clear. intros p s i pc pc' s' (Hlen & W & HW & HF & HP) Hnth Hf Hs.
    assert (Hi : i < List.length pool).
    { rewrite <- Hlen. apply nth_error_Some. congruence. }
    pose proof (worker_step_performs _ _ _ _ _ _ _ Hf Hs) as Hp.
    apply _tor_worker_step_Step in Hs; [|exact Hf].
    split; [now rewrite set_nth_length|].
    destruct (set_nth_split _ _ _ pc' Hnth) as (pre & post & -> & ->).
    rewrite fetched_split in *. rewrite Hp, HW, <- app_assoc.
    inversion Hs; subst; simpl in *;
      rewrite ?handled_app; simpl;
      rewrite ?(quiet_handled evs) by assumption;
      rewrite ?app_nil_r;
      try (exists W; split; [reflexivity|]; split; assumption).
    + exists (W ++ [worker_curl config i scrape]).
      split; [reflexivity|]. split.
      * apply Forall_app. split; [exact HF|]. constructor; [|constructor].
        unfold through_circuit, worker_curl. simpl. eauto.
      * rewrite map_app. simpl. now apply Permutation_add.
    + exists W. split; [reflexivity|]. split; [exact HF|].
      rewrite map_app. simpl. now apply Permutation_move.
    + exists W. split; [reflexivity|]. split; [exact HF|].
      rewrite map_app. simpl. now apply Permutation_move.
  - split; [reflexivity|]. exists []. rewrite app_nil_r, Hh0, Hf0. simpl.
    repeat split; constructor.
Qed.

(** X9. Every transfer of a run, the probes of the start-up and the
    fetches of the workers alike, is made through the SOCKS5 proxy on
    localhost, with host names resolved by the proxy, on the socks port
    of one of the run's circuits; nothing is ever fetched directly. This
    holds however the run ends. *)
Theorem every_transfer_goes_through_a_circuit
    world config requests schedule r st' :
  run world config schedule (enqueued requests) = Some (r, st') ->
  Forall (through_circuit config (Z.to_nat (thread_count config)))
         (performs (trace st')).
Proof.
  intros Hrun. destruct (enqueued_spec requests) as (Htr & _).
  assert (Hprobe : forall W,
            Forall (fun c => exists u i,
                      In i (range (thread_count config)) /\
                      c = probe_curl config u i) W ->
            Forall (through_circuit config (Z.to_nat (thread_count config))) W).
  { intros W. apply Forall_impl. intros c (u & i & Hi & ->).
    apply in_seq in Hi. unfold through_circuit, probe_curl. simpl.
    split; [reflexivity|]. split; [reflexivity|]. exists i. split; [lia|reflexivity]. }
  destruct r as [[]|e].
  - apply run_Ok_phases in Hrun.
    destruct Hrun as (st1 & pool & st2 & evs2 & Hstart & _ & _ & _ & _ & Hh1 & _ &
                      Hrun & _ & _ & _ & Ht & _).
    apply start_tor_processes_performs in Hstart.
    destruct Hstart as (W1 & HW1 & HF1 & _).
    apply run_threads_performs in Hrun;
      [|exact Hh1|apply fetched_AtStart].
    destruct Hrun as (W2 & HW2 & HF2 & _).
    rewrite length_map, length_seq in HF2.
    rewrite Ht, performs_app, performs_map_Kill, app_nil_r, HW2, HW1, Htr.
    simpl. apply Forall_app. split; [now apply Hprobe|exact HF2].
  - apply run_cases in Hrun.
    destruct Hrun as [(e' & _ & Hstart)|(? & ? & ? & ? & [=] & _)].
    apply start_tor_processes_performs in Hstart.
    destruct Hstart as (W1 & HW1 & HF1 & _).
    rewrite HW1, Htr. simpl. now apply Hprobe.
Qed.

Lemma every_transfer_goes_through_a_circuit_witness :
  exists st',
    run Examples.world_second_fetch_fails Examples.config_probe
        (Examples.first_running 30) (enqueued Examples.three_requests) =
    Some (Ok tt, st') /\
    List.length (performs (trace st')) = 4 /\
    Forall (through_circuit Examples.config_probe 1) (performs (trace st')).
Proof.
  eexists. split; [vm_compute; reflexivity|]. split; [reflexivity|].
  apply (every_transfer_goes_through_a_circuit
           Examples.world_second_fetch_fails Examples.config_probe
           Examples.three_requests (Examples.first_running 30) (Ok tt)).
  vm_compute; reflexivity.
Defined.

(** X10. Nothing is fetched twice and nothing is retried: when [run]
    returns normally, the URLs of its transfers are one probe of the
    public-IP URL per circuit, if that URL is not empty, and one fetch
    for each task whose handler was invoked, whether the fetch succeeded
    or failed. *)
Theorem one_transfer_per_probe_and_per_task
    world config requests schedule st' :
  run world config schedule (enqueued requests) = Some (Ok tt, st') ->
  Permutation
    (map URL (performs (trace st')))
    (map URL (probes config (seq 0 (Z.to_nat (thread_count config)))) ++
     map scrape_url (handled (trace st'))).
Proof.
  intros Hrun. destruct (enqueued_spec requests) as (Htr & _).
  apply run_Ok_phases in Hrun.
  destruct Hrun as (st1 & pool & st2 & evs2 & Hstart & _ & _ & _ & _ & Hh1 & _ &
                    Hrun & _ & _ & _ & Ht & _).
  apply start_tor_processes_performs in Hstart.
  destruct Hstart as (W1 & HW1 & _ & HO1).
  pose proof (run_threads_finished _ _ _ _ _ _ _ Hrun) as Hfin.
  apply run_threads_performs in Hrun; [|exact Hh1|apply fetched_AtStart].
  destruct Hrun as (W2 & HW2 & _ & HP).
  rewrite (fetched_finished _ Hfin), app_nil_r in HP.
  rewrite Ht, performs_app, performs_map_Kill, handled_app, handled_map_Kill,
    !app_nil_r, HW2, HW1, Htr, (HO1 _ eq_refl), map_app.
  simpl. now apply Permutation_app_head.
Qed.

Lemma one_transfer_per_probe_and_per_task_witness :
  exists st',
    run Examples.world_second_fetch_fails Examples.config_probe
        (Examples.first_running 30) (enqueued Examples.three_requests) =
    Some (Ok tt, st') /\
    Permutation
      (map URL (performs (trace st')))
      ("https://api.ipify.org" :: map scrape_url (handled (trace st'))).
Proof.
  eexists. split; [vm_compute; reflexivity|].
  apply (one_transfer_per_probe_and_per_task
           Examples.world_second_fetch_fails Examples.config_probe
           Examples.three_requests (Examples.first_running 30)).
  vm_compute; reflexivity.
Defined.

(** ** How [run] can fail *)

Lemma for_each_lines_raises lines : forall st e st',
  for_each lines _tor_init_msg_handler st = (Raise e, st') -> e = IndexError.
Proof.
  induction lines as [|line lines IH]; simpl; intros st e st' H; [discriminate|].
  unfold bind in H.
  destruct (_tor_init_msg_handler line st) as [[[]|e1] st1] eqn:E.
  - eapply IH; eauto.
  - injection H as <- <-.
    unfold _tor_init_msg_handler, bind, getitem in E.
    destruct (Py.contains _ _); [|discriminate].
    destruct (nth_error _ _); simpl in E; [discriminate|]. now injection E as <- _.
Qed.

(** A launch, by its outcome: it asks for one process; it returns the
    process, now running, or raises [IndexError] out of the message
    handler or the launcher's [OSError], with the running processes as
    they were. *)
Lemma launch_outcome world cmd cfg st r st' :
  launch_tor_with_config world cmd cfg _tor_init_msg_handler st = (r, st') ->
  launches (trace st') = launches (trace st) ++ [(cmd, cfg)] /\
  match r with
  | Ok p =>
      p = List.length (launches (trace st)) /\
      tor_running st' = tor_running st ++ [p]
  | Raise e =>
      tor_running st' = tor_running st /\
      (e = IndexError \/
       exists msg, tor_failure world cfg = Some msg /\ e = OSError msg)
  end.
Proof.
  unfold launch_tor_with_config, bind. rewrite emit_eq.
  destruct (Quiet_for_each _tor_init_msg_handler (tor_output world cfg)
              Quiet_tor_init_msg_handler (record st [LaunchTor cmd cfg]))
    as (r1 & evs & E & Hq).
  rewrite E. rewrite record_record. destruct r1 as [[]|e].
  - destruct (tor_failure world cfg) as [msg|]; intros [= <- <-]; simpl;
      rewrite launches_app; simpl; rewrite (quiet_launches evs Hq).
    + split; [reflexivity|]. split; [reflexivity|]. right. now exists msg.
    + auto.
  - intros [= <- <-]. simpl. rewrite launches_app. simpl.
    rewrite (quiet_launches evs Hq). apply for_each_lines_raises in E. auto.
Qed.

Lemma log_public_ip_outcome world config index st r st' :
  log_public_ip world config index st = (r, st') ->
  launches (trace st') = launches (trace st) /\
  tor_running st' = tor_running st /\
  match r with
  | Ok _ => True
  | Raise e =>
      (public_ip_url config = None /\ e = KeyError "public_ip_url") \/
      (exists u, public_ip_url config = Some u /\ u <> "" /\
                 setopt_failure world (probe_curl config u index) = Some e) \/
      (exists u, public_ip_url config = Some u /\ u <> "" /\
                 setopt_failure world (probe_curl config u index) = None /\
                 e = TypeError "cannot concatenate 'str' and 'NoneType' objects")
  end.
Proof.
  pose proof (log_public_ip_cases world config index st) as H.
  destruct (public_ip_url config) as [u|].
  - destruct (String.eqb u "") eqn:Ee.
    + rewrite H. intros [= <- <-]. auto.
    + apply String.eqb_neq in Ee.
      cbv zeta in H. fold (probe_curl config u index) in H.
      destruct (setopt_failure world _) as [e0|] eqn:Es.
      { rewrite H. intros [= <- <-]. split; [reflexivity|].
        split; [reflexivity|]. right. left. exists u. auto. }
      destruct (curl_outcome world _ _); rewrite H;
        intros [= <- <-]; simpl; rewrite launches_app; simpl;
        rewrite app_nil_r; (split; [reflexivity|]); (split; [reflexivity|]); auto.
      right. right. exists u. auto.
  - rewrite H. intros [= <- <-]. auto.
Qed.

(** The start-up loop, when it raises: at which index [k] of the
    remaining ones, with which exception, and what is left running. *)
Lemma start_tor_processes_raises world config indices :
  forall tor_processes st e st',
    start_tor_processes world config indices tor_processes st = (Raise e, st') ->
    exists k index,
      nth_error indices k = Some index /\
      launches (trace st') =
        launches (trace st) ++
        map (fun i => (tor_cmd config, tor_config config i))
            (firstn (S k) indices) /\
      ((tor_running st' =
          tor_running st ++ seq (List.length (launches (trace st))) k /\
        (e = IndexError \/
         exists msg, tor_failure world (tor_config config index) = Some msg /\
                     e = OSError msg)) \/
       (tor_running st' =
          tor_running st ++ seq (List.length (launches (trace st))) (S k) /\
        ((public_ip_url config = None /\ e = KeyError "public_ip_url") \/
         (exists u, public_ip_url config = Some u /\ u <> "" /\
                    setopt_failure world (probe_curl config u index) = Some e) \/
         (exists u, public_ip_url config = Some u /\ u <> "" /\
                    setopt_failure world (probe_curl config u index) = None /\
                    e = TypeError "cannot concatenate 'str' and 'NoneType' objects")))).
Proof.
  induction indices as [|index indices IH]; intros procs st e st' H; simpl in H;
    [discriminate|].
  unfold bind at 1 in H.
  destruct (launch_tor_with_config _ _ _ _ st) as [[p|e1] st1] eqn:El;
    apply launch_outcome in El; destruct El as (Hl1 & Hr1).
  - destruct Hr1 as (-> & Hr1). unfold bind at 1 in H.
    destruct (log_public_ip world config index st1) as [[[]|e2] st2] eqn:Ep;
      apply log_public_ip_outcome in Ep; destruct Ep as (Hl2 & Hr2 & He2).
    + apply IH in H. destruct H as (k & i & Hnth & Hl & Hcases).
      exists (S k), i. split; [exact Hnth|].
      rewrite Hl2, Hl1 in Hl. rewrite Hl, <- app_assoc. split; [reflexivity|].
      rewrite Hl2, Hl1, length_app, Hr2, Hr1, <- !app_assoc in Hcases.
      simpl in Hcases. rewrite Nat.add_1_r in Hcases. exact Hcases.
    + injection H as <- <-. exists 0, index. split; [reflexivity|].
      rewrite Hl2, Hl1. split; [reflexivity|]. right. rewrite Hr2, Hr1. auto.
  - injection H as <- <-. exists 0, index. split; [reflexivity|].
    rewrite Hl1. split; [reflexivity|]. left. destruct Hr1 as (-> & He).
    rewrite app_nil_r. auto.
Qed.

Lemma firstn_seq_le k : forall start n,
  k <= n -> firstn k (seq start n) = seq start k.
Proof.
  induction k as [|k IH]; intros start [|n] H; simpl; try reflexivity; try lia.
  now rewrite IH by lia.
Qed.

(** X11. The ways [run] can fail. When [run] ends with an exception on
    a fresh object, it failed while starting circuit [k], for some [k]
    below [thread_count]: it has asked for the circuits [0] to [k], in
    that order, killed none, started no worker and left the queue as it
    was. Either the launch of circuit [k] failed, with the launcher's
    [OSError] or with [IndexError] from the message handler, and the
    processes [0] to [k-1] are still running; or the probe of circuit
    [k] failed, with [KeyError] because [public_ip_url] is missing, with
    what setting the options of the probe raised, or with [TypeError]
    because the transfer failed, and the processes [0] to [k] are still
    running. An exception raised inside a worker never reaches the
    caller of [run]. *)
Theorem run_fails_only_in_startup world config requests schedule e st' :
  run world config schedule (enqueued requests) = Some (Raise e, st') ->
  exists k,
    k < Z.to_nat (thread_count config) /\
    launches (trace st') =
      map (fun i => (tor_cmd config, tor_config config i)) (seq 0 (S k)) /\
    kills (trace st') = [] /\ dequeued (trace st') = [] /\
    scrape_queue st' = scrape_queue (enqueued requests) /\
    ((tor_running st' = seq 0 k /\
      (e = IndexError \/
       exists msg, tor_failure world (tor_config config k) = Some msg /\
                   e = OSError msg)) \/
     (tor_running st' = seq 0 (S k) /\
      ((public_ip_url config = None /\ e = KeyError "public_ip_url") \/
       (exists u, public_ip_url config = Some u /\ u <> "" /\
                  setopt_failure world (probe_curl config u k) = Some e) \/
       (exists u, public_ip_url config = Some u /\ u <> "" /\
                  setopt_failure world (probe_curl config u k) = None /\
                  e = TypeError "cannot concatenate 'str' and 'NoneType' objects")))).
Proof.
  intros Hrun. destruct (enqueued_spec requests) as (Htr & Hrunning & _).
  pose proof (run_Raise _ _ _ _ _ _ Hrun) as (_ & Hk & _ & _ & Hd & Hq).
  apply run_cases in Hrun.
  destruct Hrun as [(e' & [= <-] & Hstart)|(? & ? & ? & ? & [=] & _)].
  apply start_tor_processes_raises in Hstart.
  destruct Hstart as (k & index & Hnth & Hl & Hcases).
  rewrite Htr in Hl, Hcases. rewrite Hrunning in Hcases.
  cbn -[firstn seq] in Hl, Hcases. unfold range in *.
  assert (Hk' : k < List.length (seq 0 (Z.to_nat (thread_count config))))
    by (apply nth_error_Some; congruence).
  rewrite length_seq in Hk'.
  rewrite nth_error_seq in Hnth.
  destruct (Nat.ltb_spec k (Z.to_nat (thread_count config))); [|lia].
  injection Hnth as <-.
  exists k. split; [exact Hk'|]. split.
  { rewrite Hl. f_equal. apply firstn_seq_le. lia. }
  rewrite Htr in Hk, Hd.
  split; [exact Hk|]. split; [exact Hd|]. split; [exact Hq|]. exact Hcases.
Qed.

Lemma run_fails_only_in_startup_witness :
  exists st',
    run Examples.world_second_launch_fails (Examples.config_of 2)
        (Examples.first_running 12) (enqueued Examples.three_requests) =
    Some (Raise (OSError "Process terminated: Timed out"), st') /\
    List.length (launches (trace st')) = 2 /\
    tor_running st' = [0] /\ kills (trace st') = [] /\
    scrape_queue st' = scrape_queue (enqueued Examples.three_requests).
Proof.
  eexists. split; [vm_compute; reflexivity|].
  edestruct (run_fails_only_in_startup Examples.world_second_launch_fails
               (Examples.config_of 2) Examples.three_requests
               (Examples.first_running 12))
    as (k & _ & _ & Hk & _ & Hq & _); [vm_compute; reflexivity|].
  split; [reflexivity|]. split; [reflexivity|]. split; [exact Hk|exact Hq].
Defined.

(** ** Termination *)

(** X12. [run] always comes back. From any state of the object, with
    any handlers, raising or not, and any outcomes of launches and
    transfers, a worker executes at most five statements per task it
    takes and two more, so under every schedule that gives the threads
    five steps per queued task and two per thread every [join] returns
    and [run] ends, normally or with an exception of the start-up. *)
Theorem run_always_comes_back world config schedule st :
  5 * List.length (scrape_queue st) + 2 * Z.to_nat (thread_count config)
    <= List.length schedule ->
  exists r st', run world config schedule st = Some (r, st').
Proof.
  intros Hlen. unfold run.
  destruct (start_tor_processes _ _ _ _ _) as [[procs|e] st1] eqn:Hstart; [|eauto].
  apply start_tor_processes_spec in Hstart.
  destruct Hstart as (k & pids & evs & _ & Hq & _).
  destruct (run_threads_terminates world config schedule
              (map (fun _ => AtStart) (range (thread_count config))) st1)
    as (pool & st2 & ->).
  { unfold steps_left, range. rewrite weight_AtStart, length_seq, Hq. exact Hlen. }
  destruct (kill_all_spec procs st2) as (st3 & -> & _). eauto.
Qed.

Lemma run_always_comes_back_witness :
  exists r st',
    run Examples.world_ok (Examples.config_of 2) (Examples.alternating 14)
        (enqueued Examples.faulty_requests) = Some (r, st').
Proof.
  apply (run_always_comes_back Examples.world_ok (Examples.config_of 2)
           (Examples.alternating 14) (enqueued Examples.faulty_requests)).
  vm_compute. repeat constructor.
Defined.

(** ** What each handler receives *)

Lemma deliveries_app config a b :
  deliveries config (a ++ b) = deliveries config a ++ deliveries config b.
Proof. apply flat_map_app. Qed.

Lemma quiet_deliveries config evs : quiet evs -> deliveries config evs = [].
Proof.
  unfold quiet. induction evs as [|[] evs IH]; simpl; intros H;
    try discriminate; auto.
Qed.

Lemma deliveries_handled_nil config tr :
  handled tr = [] -> deliveries config tr = [].
Proof.
  induction tr as [|[] tr IH]; simpl; intros H; try discriminate; auto.
Qed.

Lemma deliveries_map_Kill config pids : deliveries config (map Kill pids) = [].
Proof. induction pids; simpl; auto. Qed.

Lemma outcomes_app world W : forall n c,
  outcomes world n (W ++ [c]) =
  outcomes world n W ++
  [(c, outcome_result (curl_outcome world (n + List.length W) c))].
Proof.
  induction W as [|d W IH]; intros n c; simpl.
  - now rewrite Nat.add_0_r.
  - rewrite IH. now rewrite Nat.add_succ_r.
Qed.

Lemma carried_from_split config pre : forall k pc post,
  carried_from config k (pre ++ pc :: post) =
  carried_from config k pre ++ carried config (k + List.length pre) pc ++
  carried_from config (S (k + List.length pre)) post.
Proof.
  induction pre as [|p pre IH]; intros k pc post; simpl.
  - now rewrite Nat.add_0_r.
  - rewrite IH, <- app_assoc. now rewrite !Nat.add_succ_r.
Qed.

Lemma carried_from_AtStart {A} config (l : list A) : forall k,
  carried_from config k (map (fun _ => AtStart) l) = [].
Proof. induction l; simpl; auto. Qed.

Lemma carried_from_finished config pool : forall k,
  Forall (fun pc => finished pc = true) pool -> carried_from config k pool = [].
Proof.
  induction pool as [|pc pool IH]; intros k H; simpl; [reflexivity|].
  inversion H; subst. rewrite IH by assumption.
  destruct pc; simpl in *; try discriminate; reflexivity.
Qed.

Lemma set_nth_split_at pool : forall i pc pc',
  nth_error pool i = Some pc ->
  exists pre post,
    List.length pre = i /\
    pool = pre ++ pc :: post /\ set_nth i pc' pool = pre ++ pc' :: post.
Proof.
  induction pool as [|p pool IH]; intros [|i] pc pc' H; simpl in *; try discriminate.
  - injection H as ->. now exists [], pool.
  - destruct (IH _ _ pc' H) as (pre & post & <- & -> & ->).
    now exists (p :: pre), post.
Qed.

(** The fetch hands on the value of the outcome of its transfer, if it
    gets as far as the transfer. *)
Lemma query_step_result world config index scrape st pc' st' :
  _tor_worker_step world config index (AtQuery scrape) st = (pc', st') ->
  (pc' = AtCall scrape
           (outcome_result
              (curl_outcome world (List.length (performs (trace st)))
                 (worker_curl config index scrape))) \/
   exists e, pc' = Died e) /\
  deliveries config (trace st') = deliveries config (trace st).
Proof.
  simpl. unfold goto.
  pose proof (_query_cases world (scrape_url scrape)
                (socks_port_offset config + Z.of_nat index) st) as Hq.
  cbv zeta in Hq. unfold worker_curl.
  destruct (setopt_failure world _) as [e|].
  { rewrite Hq. intros [= <- <-]. eauto. }
  destruct (curl_outcome world _ _); rewrite Hq; intros [= <- <-]; simpl;
    rewrite deliveries_app; simpl; rewrite app_nil_r; auto.
Qed.

Lemma call_step_deliveries world config index scrape result st pc' st' :
  _tor_worker_step world config index (AtCall scrape result) st = (pc', st') ->
  deliveries config (trace st') =
  deliveries config (trace st) ++ [(worker_curl config index scrape, result)] /\
  carried config index pc' = [].
Proof.
  simpl. unfold goto, call, bind. rewrite emit_eq.
  destruct (scrape_handler scrape) as [|f].
  - unfold _default_handler, bind. rewrite !logger_eq, !record_record.
    intros [= <- <-]. simpl. rewrite deliveries_app. auto.
  - destruct (f _ _ _); simpl; intros [= <- <-]; simpl;
      rewrite deliveries_app; auto.
Qed.

Lemma Step_deliveries world config index pc st pc' st' :
  Step world config index pc st pc' st' ->
  (forall s r, pc <> AtCall s r) ->
  deliveries config (trace st') = deliveries config (trace st).
Proof.
  intros Hs Hpc. inversion Hs; subst; simpl; rewrite ?deliveries_app; simpl;
    rewrite ?(quiet_deliveries config evs) by assumption; rewrite ?app_nil_r; auto;
    now destruct (Hpc scrape result).
Qed.

(** What the threads keep true of their transfers [W] and the values
    their outcomes amount to: each value is held by the worker that made
    the transfer or has been given to the handler of that task. *)
Lemma run_threads_deliveries world config schedule pool st pool' st' :
  deliveries config (trace st) = [] -> carried_from config 0 pool = [] ->
  run_threads world config schedule pool st = Some (pool', st') ->
  exists W,
    performs (trace st') = performs (trace st) ++ W /\
    Permutation (outcomes world (List.length (performs (trace st))) W)
                (deliveries config (trace st') ++ carried_from config 0 pool').
Proof.
  intros Hd0 Hc0 Hrun.
  apply (run_threads_invariant world config
           (fun p s =>
              exists W,
                performs (trace s) = performs (trace st) ++ W /\
                Permutation
                  (outcomes world (List.length (performs (trace st))) W)
                  (deliveries config (trace s) ++ carried_from config 0 p)))
    in Hrun.
  - tauto.
  - clear. intros p s i pc pc' s' (W & HW & HP) Hnth Hf Hs.
    pose proof (worker_step_performs _ _ _ _ _ _ _ Hf Hs) as Hp.
    pose proof (_tor_worker_step_Step _ _ _ _ _ _ _ Hf Hs) as HS.
    destruct (set_nth_split_at _ _ _ pc' Hnth) as (pre & post & Hi & -> & ->).
    rewrite carried_from_split in *. simpl in *. rewrite Hi in *.
    destruct pc; simpl in Hf; try discriminate.
    + exists W. rewrite Hp, app_nil_r, (Step_deliveries _ _ _ _ _ _ _ HS)
        by discriminate.
      split; [exact HW|]. inversion HS; subst. exact HP.
    + exists W. rewrite Hp, app_nil_r, (Step_deliveries _ _ _ _ _ _ _ HS)
        by discriminate.
      split; [exact HW|]. inversion HS; subst; exact HP.
    + exists W. rewrite Hp, app_nil_r, (Step_deliveries _ _ _ _ _ _ _ HS)
        by discriminate.
      split; [exact HW|]. inversion HS; subst. exact HP.
    + destruct (query_step_result _ _ _ _ _ _ _ Hs) as ([->|(e & ->)] & Hd).
      * exists (W ++ [worker_curl config i scrape]).
        rewrite Hp, HW, <- app_assoc, Hd. split; [reflexivity|].
        rewrite outcomes_app, length_app. simpl in *. now apply Permutation_add.
      * exists W. rewrite Hp, app_nil_r, Hd. split; [exact HW|exact HP].
    + destruct (call_step_deliveries _ _ _ _ _ _ _ _ Hs) as (Hd & Hc).
      exists W. rewrite Hp, app_nil_r, Hd, Hc. split; [exact HW|].
      simpl in *. now apply Permutation_move.
    + exists W. rewrite Hp, app_nil_r, (Step_deliveries _ _ _ _ _ _ _ HS)
        by discriminate.
      split; [exact HW|]. inversion HS; subst; exact HP.
  - exists []. rewrite app_nil_r, Hd0, Hc0. simpl. split; constructor.
Qed.

(** X13. Each handler receives the outcome of the fetch of its own
    task. When [run] returns normally, its transfers are the probes of
    the start-up followed by the transfers [W] of the workers, and the
    handler calls match [W] one for one: to each transfer, made for a
    task's URL through the socks port of some worker, corresponds one
    call by that worker of that task's handler, with the body the
    transfer returned, or with [None] if it failed. *)
Theorem handlers_receive_their_own_fetch world config requests schedule st' :
  run world config schedule (enqueued requests) = Some (Ok tt, st') ->
  exists W,
    performs (trace st') =
      probes config (seq 0 (Z.to_nat (thread_count config))) ++ W /\
    Permutation
      (outcomes world
         (List.length (probes config (seq 0 (Z.to_nat (thread_count config)))))
         W)
      (deliveries config (trace st')).
Proof.
  intros Hrun. destruct (enqueued_spec requests) as (Htr & _).
  apply run_Ok_phases in Hrun.
  destruct Hrun as (st1 & pool & st2 & evs2 & Hstart & _ & _ & _ & _ & Hh1 & _ &
                    Hrun & _ & _ & _ & Ht & _).
  apply start_tor_processes_performs in Hstart.
  destruct Hstart as (W1 & HW1 & _ & HO1).
  rewrite Htr, (HO1 _ eq_refl) in HW1. simpl in HW1. unfold range in HW1.
  pose proof (run_threads_finished _ _ _ _ _ _ _ Hrun) as Hfin.
  apply run_threads_deliveries in Hrun;
    [|now apply deliveries_handled_nil|apply carried_from_AtStart].
  destruct Hrun as (W & HW & HP).
  rewrite (carried_from_finished _ _ _ Hfin), app_nil_r, HW1 in HP.
  exists W.
  rewrite Ht, performs_app, performs_map_Kill, deliveries_app,
    deliveries_map_Kill, !app_nil_r, HW, HW1.
  split; [reflexivity|exact HP].
Qed.

Lemma handlers_receive_their_own_fetch_witness :
  exists st',
    run Examples.world_second_fetch_fails Examples.config_probe
        (Examples.first_running 30) (enqueued Examples.three_requests) =
    Some (Ok tt, st') /\
    map snd (deliveries Examples.config_probe (trace st')) =
      [None; Some "page"; Some "page"] /\
    exists W,
      performs (trace st') =
        probes Examples.config_probe (seq 0 1) ++ W /\
      Permutation (outcomes Examples.world_second_fetch_fails 1 W)
                  (deliveries Examples.config_probe (trace st')).
Proof.
  eexists. split; [vm_compute; reflexivity|]. split; [reflexivity|].
  apply (handlers_receive_their_own_fetch Examples.world_second_fetch_fails
           Examples.config_probe Examples.three_requests
           (Examples.first_running 30)).
  vm_compute; reflexivity.
Defined.
